(** * Bi-colour LED activity monitor (Software/ledIndicator.cpp)

    A shallow embedding of the CPU load sampler ([CPUMonitor::getCPULoad]),
    of the flash policy of the main loop and of the start-up and shutdown
    paths of [main] and [signalHandler], followed by the properties of the
    specification that were checked against them.

    Modelling choices, all visible in the definitions below:
    - [double] is IEEE 754 binary64, given by the executable specification
      [SpecFloat] of the Standard Library (round to nearest, ties to even);
      no operation is idealised to real arithmetic;
    - [unsigned long long] is [Z] reduced modulo [2^64] after every
      operation, [int] is [Z] wrapped to 32 bits;
    - the contents of /proc/stat, the steady clock, the random generator and
      the result of [gpioInitialise] are inputs;
    - every floating-point operation rounds on its own, as the source writes
      it (no fused multiply-add);
    - the pigpio library is reduced to what the program asks of it: the last
      level written to a pin, the last duty cycle set on a pin, and whether
      the library has been terminated;
    - a signal is the invocation of [signalHandler], for one of the five
      signals [main] installs it for. *)

From Stdlib Require Import ZArith Bool List Lia SpecFloat.
From Stdlib Require Ascii.
Import ListNotations.
Local Open Scope Z_scope.

(** ** IEEE 754 binary64 *)

Module Double.

Definition prec : Z := 53.
Definition emax : Z := 1024.

Definition double : Type := spec_float.

Definition add : double -> double -> double := SFadd prec emax.
Definition sub : double -> double -> double := SFsub prec emax.
Definition mul : double -> double -> double := SFmul prec emax.
Definition div : double -> double -> double := SFdiv prec emax.

(** [a < b] and [a <= b]; both are false when an operand is a NaN. *)
Definition ltb : double -> double -> bool := SFltb.
Definition leb : double -> double -> bool := SFleb.

(** Conversion of an integer to [double] (exact up to 53 bits, rounded to
    nearest even above). *)
Definition of_Z (z : Z) : double := binary_normalize prec emax z 0 false.

(** [std::min (a, b)] is [(b < a) ? b : a]. *)
Definition min (a b : double) : double := if ltb b a then b else a.

(** The integer part of a finite double, rounded towards zero. *)
Definition trunc (x : double) : option Z :=
  match x with
  | S754_zero _ => Some 0
  | S754_finite s m e =>
      let a := if 0 <=? e then Zpos m * 2 ^ e else Zpos m / 2 ^ (- e) in
      Some (if s then - a else a)
  | S754_infinity _ | S754_nan => None
  end.

Definition zero : double := S754_zero false.
Definition one : double := Eval vm_compute in of_Z 1.

(** *** Notions used to reason about rounding

    None of these is used by the program; they name the intermediate
    results of [binary_round_aux], whose correctness is proved below. *)

Definition fexp64 (e : Z) : Z := fexp prec emax e.

(** The record after [n >= 1] right shifts of [(m, r, s)]. *)
Definition shr_spec (m : Z) (r s : bool) (n : Z) : shr_record :=
  Build_shr_record (m / 2 ^ n) (Z.odd (m / 2 ^ (n - 1)))
    (r || s || negb (m mod 2 ^ (n - 1) =? 0)).

(** The two stages of [binary_round_aux]: shift and round, then shift
    once more if the rounding carried, and classify. *)
Definition round1 (mx ex : Z) (lx : location) : Z * Z :=
  let '(mrs, e) := shr_fexp prec emax mx ex lx in
  (round_nearest_even (shr_m mrs) (loc_of_shr_record mrs), e).

Definition finish (sx : bool) (m e : Z) : double :=
  let '(mrs, e') := shr_fexp prec emax m e loc_Exact in
  match shr_m mrs with
  | Z0 => S754_zero sx
  | Zpos p => if e' <=? emax - prec then S754_finite sx p e' else S754_infinity sx
  | Zneg _ => S754_nan
  end.

(** The round bit and the sticky bit of a location. *)
Definition loc_r (l : location) : bool := shr_r (shr_record_of_loc 0 l).
Definition loc_s (l : location) : bool := shr_s (shr_record_of_loc 0 l).

(** What a location adds to a mantissa before any rounding: nothing when
    exact, less than one unit otherwise. *)
Definition loc_up (l : location) : Z :=
  match l with loc_Exact => 0 | loc_Inexact _ => 1 end.

(** The mantissa [m] with location [l], shifted right by [n] and rounded
    to nearest even. *)
Definition rne (m : Z) (l : location) (n : Z) : Z :=
  if 0 <? n then
    let q := m / 2 ^ n in
    let r := Z.odd (m / 2 ^ (n - 1)) in
    let s := loc_r l || loc_s l || negb (m mod 2 ^ (n - 1) =? 0) in
    q + (if r && (s || Z.odd q) then 1 else 0)
  else
    m + (if loc_r l && (loc_s l || Z.odd m) then 1 else 0).

(** [m1 * 2^e1 <= m2 * 2^e2], on integers. *)
Definition vle (m1 e1 m2 e2 : Z) : Prop :=
  m1 * 2 ^ (e1 - Z.min e1 e2) <= m2 * 2 ^ (e2 - Z.min e1 e2).

(** [x] is [+0] or a positive number in canonical form, and [x <= B]. *)
Definition within (B x : double) : bool :=
  match x with
  | S754_zero false => true
  | S754_finite false m e => bounded prec emax m e && SFleb x B
  | _ => false
  end.

End Double.

Definition double : Type := Double.double.

(** ** Machine integers *)

Definition u64 (z : Z) : Z := z mod 2 ^ 64.
Definition uadd (a b : Z) : Z := u64 (a + b).
Definition usub (a b : Z) : Z := u64 (a - b).

Definition INT_MIN : Z := - 2 ^ 31.
Definition INT_MAX : Z := 2 ^ 31 - 1.
Definition i32 (z : Z) : Z := (z + 2 ^ 31) mod 2 ^ 32 - 2 ^ 31.
Definition iadd (a b : Z) : Z := i32 (a + b).
Definition isub (a b : Z) : Z := i32 (a - b).
Definition idiv (a b : Z) : Z := i32 (Z.quot a b).

Definition i64 (z : Z) : Z := (z + 2 ^ 63) mod 2 ^ 64 - 2 ^ 63.

(** [(int) x]. The conversion is undefined in C++ when the truncated value
    does not fit in [int]; there the model follows the conversion instruction
    of the ARM cores the program is built for (saturation, and 0 for a NaN).
    [cast_int_in_range] below characterises the defined case, and
    [flash_duration_defined] shows that the loop stays in it for loads
    between 0 and 100. *)
Definition cast_int (x : double) : Z :=
  match x with
  | S754_nan => 0
  | S754_infinity s => if s then INT_MIN else INT_MAX
  | _ =>
      match Double.trunc x with
      | Some v => Z.max INT_MIN (Z.min INT_MAX v)
      | None => 0
      end
  end.

(** [(double) n] for an [unsigned long long] or an [int]. *)
Definition cast_double (n : Z) : double := Double.of_Z n.

(** ** Configuration (lines 31-55) *)

Definition PIN_A : Z := 16.
Definition PIN_B : Z := 26.

Definition CHECK_INTERVAL_MS : Z := 25.
Definition MIN_FLASH_DURATION_MS : Z := 12.
Definition MAX_FLASH_DURATION_MS : Z := 50.
Definition ACTIVITY_THRESHOLD : double :=
  Eval vm_compute in Double.div (Double.of_Z 1) (Double.of_Z 2).
Definition ACTIVITY_SMOOTHING : double :=
  Eval vm_compute in Double.div (Double.of_Z 1) (Double.of_Z 2).

Definition GREEN_BRIGHTNESS : Z := 32.
Definition PWM_FREQUENCY : Z := 1000.

Definition BASE_FLASH_CHANCE : double :=
  Eval vm_compute in Double.div (Double.of_Z 1) (Double.of_Z 4).
Definition CPU_SCALING : double :=
  Eval vm_compute in Double.div (Double.of_Z 4) (Double.of_Z 100).
Definition FLASH_VARIATION : double :=
  Eval vm_compute in Double.div (Double.of_Z 3) (Double.of_Z 10).

Definition MIN_PAUSE_BETWEEN_FLASHES_MS : Z := 30.

(** Literals of the program text. A decimal literal denotes the double
    nearest to it, which is the correctly rounded quotient of the two
    integers that write it. *)
Definition lit_0_0 : double := Double.zero.
Definition lit_0_5 : double :=
  Eval vm_compute in Double.div (Double.of_Z 1) (Double.of_Z 2).
Definition lit_1_0 : double := Double.one.
Definition lit_100_0 : double := Eval vm_compute in Double.of_Z 100.
Definition lit_0_3 : double :=
  Eval vm_compute in Double.div (Double.of_Z 3) (Double.of_Z 10).

(** ** CPU statistics (lines 63-113) *)

Record CPUStats : Type := mkCPUStats {
  user : Z;
  nice : Z;
  system : Z;
  idle : Z;
  iowait : Z;
  irq : Z;
  softirq : Z
}.

(** [readCPUStats]. The argument [procstat] is [None] when /proc/stat cannot
    be opened, and otherwise what the extraction of its first line leaves in
    the caller's structure; [stats] is that structure before the call, left
    as it is on failure. *)
Definition readCPUStats (procstat : option CPUStats) (stats : CPUStats)
  : bool * CPUStats :=
  match procstat with
  | None => (false, stats)
  | Some s => (true, s)
  end.

(** ** The CPU monitor (lines 116-160) *)

Record CPUMonitor : Type := mkCPUMonitor {
  lastStats : CPUStats;
  cpuLoad : double;
  initialized : bool
}.

(** The constructor: [cpuLoad (0.0)], [initialized (false)], and one read
    into [lastStats], whose previous contents [junk] are indeterminate. *)
Definition CPUMonitor_new (procstat : option CPUStats) (junk : CPUStats)
  : CPUMonitor :=
  {| lastStats := snd (readCPUStats procstat junk);
     cpuLoad := lit_0_0;
     initialized := false |}.

(** The sum of the seven counters, as lines 140-143 write it. *)
Definition total (s : CPUStats) : Z :=
  uadd (uadd (uadd (uadd (uadd (uadd (user s) (nice s)) (system s)) (idle s))
                   (iowait s)) (irq s)) (softirq s).

Definition idle_total (s : CPUStats) : Z := uadd (idle s) (iowait s).

(** The instantaneous load of line 155. *)
Definition currentLoad_of (idle_diff total_diff : Z) : double :=
  Double.mul lit_100_0
    (Double.sub lit_1_0
       (Double.div (cast_double idle_diff) (cast_double total_diff))).

(** The smoothing step of line 156. *)
Definition smooth (load currentLoad : double) : double :=
  Double.add (Double.mul load ACTIVITY_SMOOTHING)
             (Double.mul currentLoad (Double.sub lit_1_0 ACTIVITY_SMOOTHING)).

(** [getCPULoad]: the returned load and the monitor after the call.
    [junk] stands for the uninitialised local [currentStats]. *)
Definition getCPULoad (procstat : option CPUStats) (junk : CPUStats)
    (m : CPUMonitor) : double * CPUMonitor :=
  let (ok, currentStats) := readCPUStats procstat junk in
  if negb ok then (cpuLoad m, m)
  else if negb (initialized m) then
    (lit_0_0,
     {| lastStats := currentStats; cpuLoad := cpuLoad m; initialized := true |})
  else
    let last_total := total (lastStats m) in
    let curr_total := total currentStats in
    let total_diff := usub curr_total last_total in
    let idle_diff := usub (idle_total currentStats) (idle_total (lastStats m)) in
    if total_diff =? 0 then
      (cpuLoad m,
       {| lastStats := currentStats; cpuLoad := cpuLoad m;
          initialized := initialized m |})
    else
      let currentLoad := currentLoad_of idle_diff total_diff in
      let load := smooth (cpuLoad m) currentLoad in
      (load,
       {| lastStats := currentStats; cpuLoad := load;
          initialized := initialized m |}).

(** ** The LED driver (lines 74-88) *)

Record Gpio : Type := mkGpio {
  level : Z -> Z;        (* last level written to a pin by gpioWrite *)
  duty : Z -> Z;         (* last duty cycle set on a pin by gpioPWM *)
  terminated : bool      (* gpioTerminate has been called *)
}.

Definition upd (f : Z -> Z) (pin v : Z) : Z -> Z :=
  fun p => if p =? pin then v else f p.

Definition gpioWrite (pin lvl : Z) (g : Gpio) : Gpio :=
  {| level := upd (level g) pin lvl; duty := duty g; terminated := terminated g |}.

Definition gpioPWM (pin d : Z) (g : Gpio) : Gpio :=
  {| level := level g; duty := upd (duty g) pin d; terminated := terminated g |}.

Definition gpioTerminate (g : Gpio) : Gpio :=
  {| level := level g; duty := duty g; terminated := true |}.

Definition setRed (g : Gpio) : Gpio :=
  gpioWrite PIN_B 0 (gpioWrite PIN_A 1 (gpioPWM PIN_B 0 g)).

Definition setGreen (g : Gpio) : Gpio :=
  gpioPWM PIN_B GREEN_BRIGHTNESS (gpioWrite PIN_A 0 g).

Definition setOff (g : Gpio) : Gpio :=
  gpioPWM PIN_B 0 (gpioWrite PIN_A 0 g).

(** The three output configurations, read off the two channels. *)
Definition is_red (g : Gpio) : Prop :=
  level g PIN_A = 1 /\ level g PIN_B = 0 /\ duty g PIN_B = 0.
Definition is_green (g : Gpio) : Prop :=
  level g PIN_A = 0 /\ duty g PIN_B = GREEN_BRIGHTNESS.
Definition is_off (g : Gpio) : Prop :=
  level g PIN_A = 0 /\ duty g PIN_B = 0.

(** ** The main loop (lines 199-255) *)

(** The random generator: [dis (gen)] returns the next element of a fixed
    sequence of draws and advances the position. *)
Definition Draws : Type := nat -> double.

Record LoopState : Type := mkLoopState {
  running : bool;
  monitor : CPUMonitor;
  drawn : nat;                 (* draws made so far *)
  isGreen : bool;
  flashTimer : Z;              (* steady clock, nanoseconds *)
  lastFlashEndTime : Z;
  currentFlashDuration : Z;
  gpio : Gpio
}.

(** [duration_cast<milliseconds> (a - b).count ()] on the nanosecond clock. *)
Definition elapsed_ms (a b : Z) : Z := Z.quot (i64 (a - b)) 1000000.

(** The duration computed when a flash begins (lines 228-235); [r3] is the
    draw of line 232. *)
Definition base_duration (load : double) : Z :=
  let cpuFactor := Double.min lit_1_0 (Double.div load lit_100_0) in
  let durationRange := isub MAX_FLASH_DURATION_MS MIN_FLASH_DURATION_MS in
  iadd MIN_FLASH_DURATION_MS
       (cast_int (Double.mul (cast_double durationRange) cpuFactor)).

Definition randomVariation_of (r3 : double) : Z :=
  let durationRange := isub MAX_FLASH_DURATION_MS MIN_FLASH_DURATION_MS in
  cast_int (Double.mul (Double.mul (cast_double durationRange) lit_0_3) r3).

(** The amount line 233 adds to the duration. *)
Definition jitter (r3 : double) : Z :=
  let randomVariation := randomVariation_of r3 in
  isub randomVariation (idiv randomVariation 2).

Definition clamp_duration (d : Z) : Z :=
  Z.max MIN_FLASH_DURATION_MS (Z.min MAX_FLASH_DURATION_MS d).

Definition flash_duration (load r3 : double) : Z :=
  clamp_duration (iadd (base_duration load) (jitter r3)).

Definition flashProbability_of (load r1 : double) : double :=
  let randomFactor := Double.add lit_0_5 (Double.mul r1 FLASH_VARIATION) in
  Double.mul (Double.mul BASE_FLASH_CHANCE (Double.mul load CPU_SCALING))
             randomFactor.

(** One iteration of the loop body, lines 211-241; [load] is the value
    [getCPULoad] returned and [now] the clock read of line 212. The console
    output of lines 244-252 and the sleep of line 254 change nothing here. *)
Definition flash_step (gen : Draws) (load : double) (now : Z) (st : LoopState)
  : LoopState :=
  let elapsed := elapsed_ms now (flashTimer st) in
  let timeSinceLastFlash := elapsed_ms now (lastFlashEndTime st) in
  if isGreen st && (currentFlashDuration st <? elapsed) then
    {| running := running st; monitor := monitor st; drawn := drawn st;
       isGreen := false;
       flashTimer := flashTimer st;
       lastFlashEndTime := now;
       currentFlashDuration := currentFlashDuration st;
       gpio := setRed (gpio st) |}
  else if negb (isGreen st) && Double.ltb ACTIVITY_THRESHOLD load
          && (MIN_PAUSE_BETWEEN_FLASHES_MS <? timeSinceLastFlash) then
    let r1 := gen (drawn st) in
    let flashProbability := flashProbability_of load r1 in
    let r2 := gen (S (drawn st)) in
    if Double.ltb r2 flashProbability then
      let r3 := gen (S (S (drawn st))) in
      {| running := running st; monitor := monitor st;
         drawn := S (S (S (drawn st)));
         isGreen := true;
         flashTimer := now;
         lastFlashEndTime := lastFlashEndTime st;
         currentFlashDuration := flash_duration load r3;
         gpio := setGreen (gpio st) |}
    else
      {| running := running st; monitor := monitor st;
         drawn := S (S (drawn st));
         isGreen := isGreen st;
         flashTimer := flashTimer st;
         lastFlashEndTime := lastFlashEndTime st;
         currentFlashDuration := currentFlashDuration st;
         gpio := gpio st |}
  else st.

(** What one iteration reads from outside. *)
Record TickInput : Type := mkTickInput {
  procstat : option CPUStats;  (* /proc/stat at line 211 *)
  stack : CPUStats;            (* the uninitialised [currentStats] *)
  now : Z                      (* the clock at line 212 *)
}.

Definition loop_body (gen : Draws) (i : TickInput) (st : LoopState) : LoopState :=
  let (load, m) := getCPULoad (procstat i) (stack i) (monitor st) in
  flash_step gen load (now i)
    {| running := running st; monitor := m; drawn := drawn st;
       isGreen := isGreen st; flashTimer := flashTimer st;
       lastFlashEndTime := lastFlashEndTime st;
       currentFlashDuration := currentFlashDuration st;
       gpio := gpio st |}.

(** ** Start-up and shutdown (lines 91-99, 162-208, 257-264) *)

Inductive Outcome : Type :=
| Exited (status : Z) (g : Gpio)
| Looping (st : LoopState).

(** [running = false]. *)
Definition clear_running (st : LoopState) : LoopState :=
  {| running := false; monitor := monitor st; drawn := drawn st;
     isGreen := isGreen st; flashTimer := flashTimer st;
     lastFlashEndTime := lastFlashEndTime st;
     currentFlashDuration := currentFlashDuration st;
     gpio := gpio st |}.

(** [signalHandler], entered while the program is in state [st]. It reads
    nothing of the state but the pins, so [st] may as well be a state the
    interrupted iteration had not finished to build. *)
Definition signalHandler (signum : Z) (st : LoopState) : Outcome :=
  let st' := clear_running st in
  Exited 0 (gpioTerminate (setOff (gpio st'))).

(** Lines 257-264, reached when the loop condition is false. *)
Definition main_epilogue (st : LoopState) : Outcome :=
  Exited 0 (gpioTerminate (setOff (gpio st))).

(** What happens to the process while it loops: an iteration of the loop, or
    the delivery of one of the signals [main] installed the handler for. *)
Inductive Event : Type :=
| Tick (i : TickInput)
| Signal (signum : Z).

Fixpoint main_loop (gen : Draws) (evs : list Event) (st : LoopState) : Outcome :=
  if negb (running st) then main_epilogue st
  else
    match evs with
    | [] => Looping st
    | Tick i :: evs' => main_loop gen evs' (loop_body gen i st)
    | Signal signum :: _ => signalHandler signum st
    end.

(** What [main] reads before the loop. *)
Record Startup : Type := mkStartup {
  gpioInitialise : Z;              (* the result of gpioInitialise () *)
  pins : Gpio;                     (* the pins as the library finds them *)
  first_stat : option CPUStats;    (* /proc/stat in the constructor *)
  first_junk : CPUStats;           (* the uninitialised [lastStats] *)
  t_flashTimer : Z;                (* the clock at line 206 *)
  t_lastFlashEnd : Z               (* the clock at line 207 *)
}.

Definition initial_state (s : Startup) : LoopState :=
  {| running := true;
     monitor := CPUMonitor_new (first_stat s) (first_junk s);
     drawn := 0%nat;
     isGreen := false;
     flashTimer := t_flashTimer s;
     lastFlashEndTime := t_lastFlashEnd s;
     currentFlashDuration := MIN_FLASH_DURATION_MS;
     gpio := setRed (pins s) |}.

Definition main (s : Startup) (gen : Draws) (evs : list Event) : Outcome :=
  if gpioInitialise s <? 0 then Exited 1 (pins s)
  else main_loop gen evs (initial_state s).

Definition is_signal (ev : Event) : bool :=
  match ev with Signal _ => true | Tick _ => false end.

(** The process has exited with [status], both channels off and the
    library terminated. *)
Definition exited_off (status : Z) (o : Outcome) : Prop :=
  match o with
  | Exited st g => st = status /\ is_off g /\ terminated g = true
  | Looping _ => False
  end.

(** The state after a sequence of iterations, none interrupted. *)
Definition iterate (gen : Draws) (ins : list TickInput) (st : LoopState)
  : LoopState :=
  fold_left (fun st i => loop_body gen i st) ins st.

(** ** Notions the properties are stated with *)

(** [0.0 <= l && l <= 100.0], with the comparisons of the program. *)
Definition in_range (l : double) : bool :=
  Double.leb lit_0_0 l && Double.leb l lit_100_0.

(** A sequence of calls of [getCPULoad]: what each call reads (and the
    contents of its uninitialised local); the loads returned, in order, and
    the monitor after the last call. *)
Fixpoint sample_all (m : CPUMonitor) (reads : list (option CPUStats * CPUStats))
  : list double * CPUMonitor :=
  match reads with
  | [] => ([], m)
  | (p, junk) :: rest =>
      let (l, m') := getCPULoad p junk m in
      let (ls, m'') := sample_all m' rest in
      (l :: ls, m'')
  end.

Definition counters (s : CPUStats) : list Z :=
  [user s; nice s; system s; idle s; iowait s; irq s; softirq s].

(** Every counter is a value of [unsigned long long]. *)
Definition is_u64 (s : CPUStats) : bool :=
  forallb (fun c => (0 <=? c) && (c <? 2 ^ 64)) (counters s).

(** No counter of [s] is below the same counter of [p]. *)
Definition stats_leb (p s : CPUStats) : bool :=
  (user p <=? user s) && (nice p <=? nice s) && (system p <=? system s) &&
  (idle p <=? idle s) && (iowait p <=? iowait s) && (irq p <=? irq s) &&
  (softirq p <=? softirq s).

(** The seven counters of [s] add up to less than [2^64]. *)
Definition sum_fits (s : CPUStats) : bool :=
  user s + nice s + system s + idle s + iowait s + irq s + softirq s <? 2 ^ 64.

(** The successful reads of a sequence are snapshots of [unsigned long long]
    counters, each counter non-decreasing from one snapshot to the next;
    [prev] is the last snapshot read before the sequence. *)
Fixpoint monotone_from (prev : option CPUStats) (reads : list (option CPUStats))
  : bool :=
  match reads with
  | [] => true
  | None :: rest => monotone_from prev rest
  | Some s :: rest =>
      is_u64 s
      && match prev with Some p => stats_leb p s | None => true end
      && monotone_from (Some s) rest
  end.

Definition monotone_reads (reads : list (option CPUStats)) : bool :=
  monotone_from None reads.

Definition no_overflow (reads : list (option CPUStats)) : bool :=
  forallb (fun r => match r with Some s => sum_fits s | None => true end) reads.

(** A draw of [uniform_real_distribution<> (0.0, 1.0)]: a double of [0, 1]
    in canonical form. *)
Definition is_draw (r : double) : bool := Double.within lit_1_0 r.

(** ** Example inputs *)

Definition stats0 : CPUStats := mkCPUStats 0 0 0 0 0 0 0.
Definition stats_a : CPUStats := mkCPUStats 100 0 0 100 0 0 0.
Definition stats_b : CPUStats := mkCPUStats 150 0 0 100 0 0 0.
Definition stats_wrap : CPUStats := mkCPUStats (2 ^ 63 + 1) 0 0 (2 ^ 63) 0 0 0.

Definition gpio0 : Gpio := {| level := fun _ => 0; duty := fun _ => 0; terminated := false |}.
Definition gen_half : Draws := fun _ => lit_0_5.

Definition state_idle : LoopState :=
  {| running := true; monitor := CPUMonitor_new None stats0; drawn := 0%nat;
     isGreen := false; flashTimer := 0; lastFlashEndTime := 0;
     currentFlashDuration := 12; gpio := setRed gpio0 |}.

Definition state_active : LoopState :=
  {| running := true; monitor := CPUMonitor_new None stats0; drawn := 3%nat;
     isGreen := true; flashTimer := 0; lastFlashEndTime := 0;
     currentFlashDuration := 12; gpio := setGreen gpio0 |}.

(** The largest double below 1. *)
Definition draw_max : double := S754_finite false 9007199254740991 (-53).

(** ** Notions and inputs for the further properties *)

(** What the calls of [getCPULoad] made by a sequence of iterations read. *)
Definition reads_of (ins : list TickInput) : list (option CPUStats * CPUStats) :=
  map (fun i => (procstat i, stack i)) ins.

(** A generator whose every draw is 0.0, and a run of three iterations under
    it: a calibration read, a fully busy sample 100 ms after the start, and
    a third iteration 32 ms later. *)
Definition gen_zero : Draws := fun _ => lit_0_0.

Definition startup0 : Startup :=
  {| gpioInitialise := 79; pins := gpio0; first_stat := Some stats0;
     first_junk := stats0; t_flashTimer := 0; t_lastFlashEnd := 0 |}.

Definition tick_a : TickInput :=
  {| procstat := Some stats_a; stack := stats0; now := 25000000 |}.
Definition tick_b : TickInput :=
  {| procstat := Some stats_b; stack := stats0; now := 100000000 |}.
Definition tick_c : TickInput :=
  {| procstat := Some stats_b; stack := stats0; now := 132000000 |}.

(** The pins as the loop keeps them: a function of [isGreen] and of what the
    pins other than the two channels held before the program started. *)
Definition pins_follow (before : Gpio) (st : LoopState) : Prop :=
  forall p,
    level (gpio st) p =
      (if p =? PIN_A then if isGreen st then 0 else 1
       else if p =? PIN_B then 0 else level before p) /\
    duty (gpio st) p =
      (if p =? PIN_B then if isGreen st then GREEN_BRIGHTNESS else 0
       else duty before p).

(** The last successful read of a sequence, if any. *)
Definition last_success (reads : list (option CPUStats * CPUStats))
  : option CPUStats :=
  fold_left (fun acc r => match fst r with Some s => Some s | None => acc end)
            reads None.

Definition succeeded (r : option CPUStats * CPUStats) : bool :=
  match fst r with Some _ => true | None => false end.

(** ** The console bar (lines 244-252) *)

(** The two string arguments of the [printf] of line 246: fifty ['#'] and
    fifty ['-']. *)
Definition bar_hashes : list Ascii.ascii := repeat (Ascii.ascii_of_nat 35) 50.
Definition bar_dashes : list Ascii.ascii := repeat (Ascii.ascii_of_nat 45) 50.

(** The conversion [%.*s] of [printf]: at most [precision] characters of the
    string, and the whole string when the precision is negative. *)
Definition printf_precision_s (precision : Z) (s : list Ascii.ascii)
  : list Ascii.ascii :=
  if precision <? 0 then s else firstn (Z.to_nat precision) s.

(** [std::min (50, (int) (cpuLoad / 2))]. *)
Definition barLength_of (load : double) : Z :=
  Z.min 50 (cast_int (Double.div load (cast_double 2))).

(** What line 246 prints between the brackets. *)
Definition console_bar (load : double) : list Ascii.ascii :=
  let barLength := barLength_of load in
  printf_precision_s barLength bar_hashes
  ++ printf_precision_s (isub 50 barLength) bar_dashes.

(** A double above every flash probability the loop computes from a load
    between 0 and 100: 0.8000000000000003. *)
Definition flash_probability_cap : double :=
  S754_finite false 7205759403792796 (-53).

Definition lit_0_9 : double :=
  Eval vm_compute in Double.div (Double.of_Z 9) (Double.of_Z 10).
Definition gen_high : Draws := fun _ => lit_0_9.

(** A load of -4, as a wrapped total can produce. *)
Definition load_negative : double := S754_finite true 4503599627370496 (-50).

(** ** Proof steps used throughout *)

Ltac pow2_pos := apply Z.pow_pos_nonneg; lia.

(** Turns [m * 2 ^ (e - e)] into [m]. *)
Ltac same_exponent := rewrite Z.sub_diag, Z.pow_0_r, Z.mul_1_r.

(** * Correctness of the arithmetic

    Rounding to nearest never crosses a representable bound: if the exact
    result of an operation is at most [B], and [B] is a double, so is the
    rounded result. The lemmas below establish this for the operations of
    [SpecFloat] the program uses, from the definition of
    [binary_round_aux]. *)

Module DoubleFacts.
Import Double.

(** ** Number of binary digits *)

Lemma digits2_pos_log2 p : Zpos (digits2_pos p) = Z.log2 (Zpos p) + 1.
Proof.
  induction p as [p IH|p IH|]; simpl digits2_pos.
  - rewrite Pos2Z.inj_succ, IH. change (Z.pos p~1) with (2 * Z.pos p + 1).
    rewrite Z.log2_succ_double by lia. lia.
  - rewrite Pos2Z.inj_succ, IH. change (Z.pos p~0) with (2 * Z.pos p).
    rewrite Z.log2_double by lia. lia.
  - reflexivity.
Qed.

Lemma Zdigits2_log2 m : 0 < m -> Zdigits2 m = Z.log2 m + 1.
Proof. destruct m; try lia. intros _. apply digits2_pos_log2. Qed.

Lemma Zdigits2_bounds m : 0 < m -> 2 ^ (Zdigits2 m - 1) <= m < 2 ^ Zdigits2 m.
Proof.
  intros H. rewrite Zdigits2_log2 by assumption.
  replace (Z.log2 m + 1 - 1) with (Z.log2 m) by lia.
  replace (Z.log2 m + 1) with (Z.succ (Z.log2 m)) by lia.
  apply Z.log2_spec; assumption.
Qed.

Lemma Zdigits2_unique m d : 2 ^ (d - 1) <= m < 2 ^ d -> 0 < d -> Zdigits2 m = d.
Proof.
  intros H Hd.
  assert (0 < m) by (assert (0 < 2 ^ (d - 1)) by pow2_pos; lia).
  rewrite Zdigits2_log2 by assumption.
  assert (Z.log2 m = d - 1); [|lia].
  apply Z.log2_unique; [lia|]. replace (Z.succ (d - 1)) with d by lia. assumption.
Qed.

Lemma Zdigits2_pos m : 0 < m -> 0 < Zdigits2 m.
Proof. intros H. rewrite Zdigits2_log2 by assumption. pose proof (Z.log2_nonneg m). lia. Qed.

Lemma Zdigits2_le a b : 0 < a -> a <= b -> Zdigits2 a <= Zdigits2 b.
Proof.
  intros Ha Hab. rewrite !Zdigits2_log2 by lia.
  pose proof (Z.log2_le_mono a b Hab). lia.
Qed.

Lemma Zdigits2_mul_pow m k : 0 < m -> 0 <= k -> Zdigits2 (m * 2 ^ k) = Zdigits2 m + k.
Proof.
  intros Hm Hk. apply Zdigits2_unique.
  - pose proof (Zdigits2_bounds m Hm) as [H1 H2].
    pose proof (Zdigits2_pos m Hm).
    replace (Zdigits2 m + k - 1) with (Zdigits2 m - 1 + k) by lia.
    rewrite !Z.pow_add_r by lia.
    assert (0 < 2 ^ k) by pow2_pos. nia.
  - pose proof (Zdigits2_pos m Hm). lia.
Qed.

Lemma Zdigits2_div_pow m n :
  0 < m -> 0 <= n -> n < Zdigits2 m -> Zdigits2 (m / 2 ^ n) = Zdigits2 m - n.
Proof.
  intros Hm Hn Hlt. pose proof (Zdigits2_bounds m Hm) as [H1 H2].
  assert (Hp : 0 < 2 ^ n) by pow2_pos.
  apply Zdigits2_unique; [|lia]. split.
  - apply Z.div_le_lower_bound; [lia|]. rewrite <- Z.pow_add_r by lia.
    replace (n + (Zdigits2 m - n - 1)) with (Zdigits2 m - 1) by lia. assumption.
  - apply Z.div_lt_upper_bound; [lia|]. rewrite <- Z.pow_add_r by lia.
    replace (n + (Zdigits2 m - n)) with (Zdigits2 m) by lia. assumption.
Qed.

Lemma div_pow_small m n : 0 <= m -> 0 <= n -> Zdigits2 m <= n -> m / 2 ^ n = 0.
Proof.
  intros Hm Hn Hd. apply Z.div_small. split; [assumption|].
  destruct (Z.eq_dec m 0) as [->|Hne]. { apply Z.pow_pos_nonneg; lia. }
  pose proof (Zdigits2_bounds m ltac:(lia)) as [_ H2].
  eapply Z.lt_le_trans; [exact H2|]. apply Z.pow_le_mono_r; lia.
Qed.

(** ** Right shifts with round and sticky bits *)

Lemma iter_pos_nat {A} (f : A -> A) p x :
  iter_pos f p x = Nat.iter (Pos.to_nat p) f x.
Proof.
  revert x. induction p as [p IH|p IH|]; intros x; simpl iter_pos.
  - rewrite !IH, Pos2Nat.inj_xI.
    replace (2 * Pos.to_nat p)%nat with (Pos.to_nat p + Pos.to_nat p)%nat by lia.
    rewrite Nat.iter_succ_r, Nat.iter_add. reflexivity.
  - rewrite !IH, Pos2Nat.inj_xO.
    replace (2 * Pos.to_nat p)%nat with (Pos.to_nat p + Pos.to_nat p)%nat by lia.
    rewrite Nat.iter_add. reflexivity.
  - reflexivity.
Qed.

Lemma shr_1_spec m r s :
  0 <= m ->
  shr_1 (Build_shr_record m r s) = Build_shr_record (m / 2) (Z.odd m) (r || s).
Proof.
  intros Hm. destruct m as [|p|p]; [reflexivity| |lia].
  destruct p as [p|p|]; simpl shr_1.
  - f_equal. change (Z.pos p~1) with (2 * Z.pos p + 1).
    apply Z.div_unique with 1; lia.
  - f_equal. change (Z.pos p~0) with (2 * Z.pos p).
    apply Z.div_unique with 0; lia.
  - reflexivity.
Qed.

Lemma shr_iter_spec m r s k :
  0 <= m ->
  Nat.iter (S k) shr_1 (Build_shr_record m r s) = shr_spec m r s (Z.of_nat (S k)).
Proof.
  intros Hm. induction k as [|k IH].
  - unfold Nat.iter; cbn [nat_rect]. rewrite shr_1_spec by assumption. unfold shr_spec.
    change (Z.of_nat 1 - 1) with 0. change (2 ^ 0) with 1. change (2 ^ Z.of_nat 1) with 2.
    rewrite Z.div_1_r, Z.mod_1_r. simpl. rewrite orb_false_r. reflexivity.
  - rewrite Nat.iter_succ, IH. unfold shr_spec.
    assert (Hp : 0 < 2 ^ Z.of_nat (S k)) by pow2_pos.
    assert (Hp' : 0 < 2 ^ (Z.of_nat (S k) - 1)) by pow2_pos.
    rewrite shr_1_spec by (apply Z.div_pos; lia).
    replace (Z.of_nat (S (S k)) - 1) with (Z.of_nat (S k)) by lia.
    f_equal.
    + rewrite Z.div_div by lia. f_equal.
      replace (Z.of_nat (S (S k))) with (Z.of_nat (S k) + 1) by lia.
      rewrite Z.pow_add_r by lia. reflexivity.
    + (* sticky *)
      set (n := Z.of_nat (S k)) in *.
      assert (Hsplit : m mod 2 ^ n = m mod 2 ^ (n - 1) + 2 ^ (n - 1) * ((m / 2 ^ (n - 1)) mod 2)).
      { replace (2 ^ n) with (2 ^ (n - 1) * 2).
        - apply Z.rem_mul_r; lia.
        - replace n with (n - 1 + 1) at 2 by lia.
          rewrite Z.pow_add_r by lia. reflexivity. }
      pose proof (Z.mod_pos_bound m (2 ^ (n - 1)) Hp') as Hb.
      rewrite Zmod_odd in Hsplit.
      revert Hsplit.
      destruct (Z.odd (m / 2 ^ (n - 1))); intros Hsplit;
        destruct (Z.eqb_spec (m mod 2 ^ (n - 1)) 0);
        destruct (Z.eqb_spec (m mod 2 ^ n) 0);
        destruct r, s; cbn [orb negb]; try reflexivity; exfalso; lia.
Qed.

Lemma shr_iter_pos_spec m r s p :
  0 <= m ->
  iter_pos shr_1 p (Build_shr_record m r s) = shr_spec m r s (Zpos p).
Proof.
  intros Hm. rewrite iter_pos_nat.
  destruct (Pos2Nat.is_succ p) as [k Hk]. rewrite Hk, shr_iter_spec by assumption.
  f_equal. rewrite <- Hk. apply positive_nat_Z.
Qed.

(** Round to nearest even on a record. *)
Lemma round_nearest_even_record mrs :
  round_nearest_even (shr_m mrs) (loc_of_shr_record mrs) =
  shr_m mrs + (if shr_r mrs && (shr_s mrs || Z.odd (shr_m mrs)) then 1 else 0).
Proof.
  destruct mrs as [m r s]. simpl. destruct r, s; simpl; try lia.
  rewrite <- Z.negb_even. destruct (Z.even m); simpl; lia.
Qed.


(** ** The two stages of rounding *)

Lemma fexp64_eq e : fexp64 e = Z.max (e - 53) (-1074).
Proof. reflexivity. Qed.

Lemma binary_round_aux_stages sx mx ex lx :
  binary_round_aux prec emax sx mx ex lx =
  finish sx (fst (round1 mx ex lx)) (snd (round1 mx ex lx)).
Proof.
  unfold binary_round_aux, round1, finish.
  destruct (shr_fexp prec emax mx ex lx) as [mrs e]. reflexivity.
Qed.

Lemma shr_record_of_loc_eq m l :
  shr_record_of_loc m l = Build_shr_record m (loc_r l) (loc_s l).
Proof. destruct l as [|[]]; reflexivity. Qed.

Lemma round1_spec mx ex lx :
  0 <= mx ->
  let n := fexp64 (Zdigits2 mx + ex) - ex in
  round1 mx ex lx = (rne mx lx n, if 0 <? n then ex + n else ex).
Proof.
  intros Hm n. unfold round1, shr_fexp, shr. fold (fexp64 (Zdigits2 mx + ex)). fold n.
  rewrite shr_record_of_loc_eq. unfold rne.
  destruct n as [|p|p] eqn:Hn.
  - simpl (0 <? 0). cbv iota. rewrite round_nearest_even_record. reflexivity.
  - replace (0 <? Z.pos p) with true by reflexivity. cbv iota.
    rewrite shr_iter_pos_spec by assumption.
    rewrite round_nearest_even_record. unfold shr_spec. cbn [shr_m shr_r shr_s].
    reflexivity.
  - replace (0 <? Z.neg p) with false by reflexivity. cbv iota.
    rewrite round_nearest_even_record. reflexivity.
Qed.

Lemma rne_bounds m l n : 0 <= m -> 0 <= n -> m / 2 ^ n <= rne m l n <= m / 2 ^ n + 1.
Proof.
  intros Hm Hn. unfold rne. destruct (Z.ltb_spec 0 n).
  - destruct (_ && _); lia.
  - replace n with 0 by lia. rewrite Z.pow_0_r, Z.div_1_r. destruct (_ && _); lia.
Qed.

Lemma rne_exact m n : 0 <= m -> 0 <= n -> m mod 2 ^ n = 0 -> rne m loc_Exact n = m / 2 ^ n.
Proof.
  intros Hm Hn Hd. unfold rne. destruct (Z.ltb_spec 0 n).
  - assert (Hp : 0 < 2 ^ (n - 1)) by pow2_pos.
    assert (Hsplit : m mod 2 ^ n = m mod 2 ^ (n - 1) + 2 ^ (n - 1) * ((m / 2 ^ (n - 1)) mod 2)).
    { replace (2 ^ n) with (2 ^ (n - 1) * 2).
      - apply Z.rem_mul_r; lia.
      - replace n with (n - 1 + 1) at 2 by lia. rewrite Z.pow_add_r by lia. reflexivity. }
    pose proof (Z.mod_pos_bound m (2 ^ (n - 1)) Hp) as Hb.
    rewrite Zmod_odd in Hsplit. revert Hsplit.
    destruct (Z.odd (m / 2 ^ (n - 1))); intros Hsplit; [exfalso; lia|].
    cbn [andb]. lia.
  - replace n with 0 by lia. rewrite Z.pow_0_r, Z.div_1_r. cbn. lia.
Qed.

(** ** Comparing [m1 * 2^e1] and [m2 * 2^e2] *)

Lemma vle_shift m1 e1 m2 e2 c :
  c <= e1 -> c <= e2 ->
  (vle m1 e1 m2 e2 <-> m1 * 2 ^ (e1 - c) <= m2 * 2 ^ (e2 - c)).
Proof.
  intros H1 H2. unfold vle. set (d := Z.min e1 e2).
  assert (Hd : 0 <= d - c) by lia.
  assert (Hp : 0 < 2 ^ (d - c)) by pow2_pos.
  replace (e1 - c) with ((e1 - d) + (d - c)) by lia.
  replace (e2 - c) with ((e2 - d) + (d - c)) by lia.
  rewrite !Z.pow_add_r by lia. split; intros H; nia.
Qed.

Lemma vle_digits m1 e1 m2 e2 :
  0 < m1 -> vle m1 e1 m2 e2 -> 0 < m2 /\ Zdigits2 m1 + e1 <= Zdigits2 m2 + e2.
Proof.
  intros H1 H. unfold vle in H. set (c := Z.min e1 e2) in *.
  assert (Hp1 : 0 < 2 ^ (e1 - c)) by pow2_pos.
  assert (Hp2 : 0 < 2 ^ (e2 - c)) by pow2_pos.
  assert (H2 : 0 < m2) by nia. split; [assumption|].
  assert (Hd := Zdigits2_le (m1 * 2 ^ (e1 - c)) (m2 * 2 ^ (e2 - c)) ltac:(nia) H).
  rewrite !Zdigits2_mul_pow in Hd by lia. lia.
Qed.

Lemma bounded_spec m e :
  bounded prec emax m e = true <-> e = fexp64 (Zdigits2 (Zpos m) + e) /\ e <= 971.
Proof.
  unfold bounded, canonical_mantissa. rewrite andb_true_iff, Z.eqb_eq, Z.leb_le.
  change (emax - prec) with 971. unfold fexp64. simpl Zdigits2. intuition congruence.
Qed.

(** ** The second stage: a canonical result below the bound *)

Lemma shr_fexp_m m e l :
  0 <= m -> e <= fexp64 (Zdigits2 m + e) ->
  let k := fexp64 (Zdigits2 m + e) - e in
  shr_m (fst (shr_fexp prec emax m e l)) = m / 2 ^ k /\
  snd (shr_fexp prec emax m e l) = e + k.
Proof.
  intros Hm He k. unfold shr_fexp, shr. fold (fexp64 (Zdigits2 m + e)). fold k.
  rewrite shr_record_of_loc_eq.
  destruct k as [|p|p] eqn:Hk; cbn [fst snd].
  - cbn [shr_m]. rewrite Z.pow_0_r, Z.div_1_r. lia.
  - rewrite shr_iter_pos_spec by assumption. unfold shr_spec. cbn [shr_m]. lia.
  - lia.
Qed.

Lemma finish_zero sx e : finish sx 0 e = S754_zero sx.
Proof.
  unfold finish, shr_fexp, shr. cbn [shr_record_of_loc].
  destruct (fexp prec emax (Zdigits2 0 + e) - e) as [|p|p]; try reflexivity.
  rewrite shr_iter_pos_spec by lia. unfold shr_spec. cbn [shr_m].
  rewrite Z.div_0_l; [reflexivity|]. apply Z.pow_nonzero; lia.
Qed.

Lemma finish_spec m e :
  0 < m -> -1074 <= e -> e <= fexp64 (Zdigits2 m + e) ->
  let k := fexp64 (Zdigits2 m + e) - e in
  exists p, Zpos p = m / 2 ^ k /\
    finish false m e =
      (if e + k <=? 971 then S754_finite false p (e + k) else S754_infinity false) /\
    e + k = fexp64 (Zdigits2 (Zpos p) + (e + k)).
Proof.
  intros Hm Hlo He k.
  destruct (shr_fexp_m m e loc_Exact ltac:(lia) He) as [H1 H2]. fold k in H1, H2.
  pose proof (Zdigits2_pos m Hm) as Hd.
  assert (Hk : 0 <= k < Zdigits2 m).
  { pose proof (fexp64_eq (Zdigits2 m + e)) as E. unfold k. lia. }
  assert (Hdq := Zdigits2_div_pow m k Hm (proj1 Hk) (proj2 Hk)).
  assert (Hq : 0 < m / 2 ^ k).
  { destruct (Z.eq_dec (m / 2 ^ k) 0) as [E|E].
    - rewrite E in Hdq. simpl in Hdq. lia.
    - assert (0 <= m / 2 ^ k) by (apply Z.div_pos; [lia|pow2_pos]). lia. }
  destruct (m / 2 ^ k) as [|p|p] eqn:Eq; try lia.
  exists p. split; [reflexivity|]. split.
  - unfold finish. destruct (shr_fexp prec emax m e loc_Exact) as [mrs e'].
    cbn [fst snd] in H1, H2. rewrite H1, H2. reflexivity.
  - rewrite Hdq. replace (Zdigits2 m - k + (e + k)) with (Zdigits2 m + e) by lia.
    unfold k. lia.
Qed.

Lemma finish_le m e mb eb :
  0 < m -> -1074 <= e -> e <= fexp64 (Zdigits2 m + e) ->
  bounded prec emax mb eb = true ->
  vle m e (Zpos mb) eb ->
  exists p e', finish false m e = S754_finite false p e' /\
    bounded prec emax p e' = true /\ e <= e' /\ e' <= eb /\
    Zpos p = m / 2 ^ (e' - e) /\
    Zpos p <= Zpos mb * 2 ^ (eb - e').
Proof.
  intros Hm Hlo He Hb Hv.
  destruct (finish_spec m e Hm Hlo He) as (p & Hp & Hf & Hc).
  set (k := fexp64 (Zdigits2 m + e) - e) in *.
  apply bounded_spec in Hb. destruct Hb as [Hb1 Hb2].
  destruct (vle_digits _ _ _ _ Hm Hv) as [_ Hd].
  assert (Hk : 0 <= k) by (unfold k; lia).
  assert (Hek : e + k <= eb).
  { unfold k. rewrite Hb1. rewrite !fexp64_eq. lia. }
  exists p, (e + k). rewrite Hf.
  replace (e + k <=? 971) with true by (symmetry; apply Z.leb_le; lia).
  split; [reflexivity|]. split; [apply bounded_spec; split; [exact Hc|lia]|].
  split; [lia|]. split; [lia|]. replace (e + k - e) with k by lia.
  split; [exact Hp|]. rewrite Hp.
  apply (vle_shift _ _ _ _ e) in Hv; [|lia|lia].
  replace (e - e) with 0 in Hv by lia. rewrite Z.pow_0_r, Z.mul_1_r in Hv.
  replace (eb - e) with ((eb - (e + k)) + k) in Hv by lia.
  rewrite Z.pow_add_r in Hv by lia.
  assert (Hpk : 0 < 2 ^ k) by pow2_pos.
  apply Z.div_le_upper_bound; [lia|]. lia.
Qed.

(** ** The order of the program on canonical doubles *)

Lemma SFleb_of_vle m1 e1 m2 e2 :
  bounded prec emax m1 e1 = true -> bounded prec emax m2 e2 = true ->
  vle (Zpos m1) e1 (Zpos m2) e2 ->
  SFleb (S754_finite false m1 e1) (S754_finite false m2 e2) = true.
Proof.
  intros H1 H2 Hv. apply bounded_spec in H1, H2. destruct H1 as [H1 _], H2 as [H2 _].
  destruct (vle_digits (Zpos m1) e1 (Zpos m2) e2 ltac:(lia) Hv) as [_ Hd].
  rewrite fexp64_eq in H1, H2.
  unfold SFleb, SFcompare. destruct (Z.compare_spec e1 e2) as [E|E|E].
  - subst e2. unfold vle in Hv. rewrite Z.min_id, Z.sub_diag, Z.pow_0_r, !Z.mul_1_r in Hv.
    change (Pos.compare_cont Eq m1 m2) with (Pos.compare m1 m2).
    destruct (Pos.compare_spec m1 m2); try reflexivity. lia.
  - reflexivity.
  - exfalso. lia.
Qed.

Lemma vle_of_SFleb m1 e1 m2 e2 :
  bounded prec emax m1 e1 = true -> bounded prec emax m2 e2 = true ->
  SFleb (S754_finite false m1 e1) (S754_finite false m2 e2) = true ->
  e1 <= e2 /\ Zpos m1 <= Zpos m2 * 2 ^ (e2 - e1).
Proof.
  intros H1 H2. apply bounded_spec in H1, H2. destruct H1 as [H1 _], H2 as [H2 _].
  rewrite fexp64_eq in H1, H2.
  unfold SFleb, SFcompare. destruct (Z.compare_spec e1 e2) as [E|E|E].
  - subst e2. change (Pos.compare_cont Eq m1 m2) with (Pos.compare m1 m2).
    same_exponent.
    destruct (Pos.compare_spec m1 m2); try discriminate; lia.
  - intros _. split; [lia|].
    pose proof (Zdigits2_bounds (Zpos m1) ltac:(lia)) as [_ B1].
    pose proof (Zdigits2_bounds (Zpos m2) ltac:(lia)) as [B2 _].
    assert (D2 : Zdigits2 (Zpos m2) = 53) by lia.
    assert (D1 : Zdigits2 (Zpos m1) <= 53) by lia.
    rewrite D2 in B2. change (2 ^ (53 - 1)) with 4503599627370496 in B2.
    assert (Z.pos m1 < 2 ^ 53).
    { eapply Z.lt_le_trans; [exact B1|]. apply Z.pow_le_mono_r; lia. }
    change (2 ^ 53) with 9007199254740992 in H.
    assert (2 ^ 1 <= 2 ^ (e2 - e1)) by (apply Z.pow_le_mono_r; lia).
    change (2 ^ 1) with 2 in H0. nia.
  - discriminate.
Qed.

Lemma rne_zero_digits mx ex :
  0 <= mx -> ex <= fexp64 (Zdigits2 mx + ex) ->
  mx / 2 ^ (fexp64 (Zdigits2 mx + ex) - ex) = 0 ->
  fexp64 (Zdigits2 mx + ex) = -1074.
Proof.
  intros Hm He Hq. set (n := fexp64 (Zdigits2 mx + ex) - ex) in *.
  destruct (Z.eq_dec mx 0) as [->|Hne].
  - simpl Zdigits2 in *. rewrite fexp64_eq in *. lia.
  - assert (Hn : Zdigits2 mx <= n).
    { destruct (Z.le_gt_cases (Zdigits2 mx) n) as [|Hgt]; [assumption|].
      pose proof (Zdigits2_div_pow mx n ltac:(lia) ltac:(unfold n; lia) ltac:(lia)) as Hd.
      rewrite Hq in Hd. simpl in Hd. lia. }
    unfold n in Hn. rewrite fexp64_eq in *. lia.
Qed.

(** The rounding theorem: a mantissa [mx] with location [lx] at exponent
    [ex], long enough for the format, whose exact value is at most the double
    [mb * 2^eb], rounds to a double that is at most [mb * 2^eb]. *)
Lemma round_aux_within mx ex lx mb eb :
  0 <= mx -> ex <= fexp64 (Zdigits2 mx + ex) ->
  bounded prec emax mb eb = true ->
  vle (mx + loc_up lx) ex (Zpos mb) eb ->
  within (S754_finite false mb eb) (binary_round_aux prec emax false mx ex lx) = true.
Proof.
  intros Hm He Hb Hv.
  rewrite binary_round_aux_stages, (round1_spec mx ex lx Hm). cbn [fst snd].
  set (n := fexp64 (Zdigits2 mx + ex) - ex) in *.
  assert (Hn : 0 <= n) by (unfold n; lia).
  replace (if 0 <? n then ex + n else ex) with (ex + n)
    by (destruct (Z.ltb_spec 0 n); lia).
  pose proof (rne_bounds mx lx n Hm Hn) as Hr.
  assert (Hq : 0 <= mx / 2 ^ n) by (apply Z.div_pos; [lia|pow2_pos]).
  set (m1 := rne mx lx n) in *. set (e1 := ex + n).
  assert (He1 : e1 = fexp64 (Zdigits2 mx + ex)) by (unfold e1, n; lia).
  destruct (Z.eq_dec m1 0) as [Hz|Hnz]. { rewrite Hz, finish_zero. reflexivity. }
  assert (Hm1 : 0 < m1) by lia.
  assert (Hup : 0 <= loc_up lx <= 1) by (destruct lx; simpl; lia).
  pose proof (proj1 (bounded_spec mb eb) Hb) as [Hb1 Hb2].
  (* the first stage leaves a mantissa that is not too short *)
  assert (Hc1 : e1 <= fexp64 (Zdigits2 m1 + e1)).
  { destruct (Z.eq_dec (mx / 2 ^ n) 0) as [Hq0|Hq0].
    - pose proof (rne_zero_digits mx ex Hm He Hq0) as Hmin.
      assert (m1 = 1) by lia. rewrite H. simpl Zdigits2. rewrite fexp64_eq. lia.
    - assert (Hmx : 0 < mx).
      { destruct (Z.eq_dec mx 0) as [E|E]; [|lia]. rewrite E in Hq0.
        rewrite Z.div_0_l in Hq0 by (apply Z.pow_nonzero; lia). lia. }
      assert (Hnd : n < Zdigits2 mx).
      { destruct (Z.lt_ge_cases n (Zdigits2 mx)) as [|Hge]; [assumption|].
        rewrite (div_pow_small mx n) in Hq0 by lia. lia. }
      pose proof (Zdigits2_div_pow mx n Hmx Hn Hnd) as Hd.
      pose proof (Zdigits2_le (mx / 2 ^ n) m1 ltac:(lia) ltac:(lia)) as Hle.
      rewrite He1 at 1. rewrite !fexp64_eq. unfold e1. lia. }
  assert (Hlo : -1074 <= e1) by (rewrite He1, fexp64_eq; lia).
  (* the bound is a multiple of the unit of the result *)
  assert (He1b : e1 <= eb).
  { destruct (Z.eq_dec mx 0) as [E|E].
    - rewrite E in He1, He. simpl Zdigits2 in *. rewrite fexp64_eq in *. lia.
    - destruct (vle_digits (mx + loc_up lx) ex (Zpos mb) eb ltac:(lia) Hv) as [_ Hd].
      pose proof (Zdigits2_le mx (mx + loc_up lx) ltac:(lia) ltac:(lia)).
      rewrite He1, Hb1, !fexp64_eq. lia. }
  apply (vle_shift _ _ _ _ ex) in Hv; [|lia|lia].
  rewrite Z.sub_diag, Z.pow_0_r, Z.mul_1_r in Hv.
  replace (eb - ex) with ((eb - e1) + n) in Hv by (unfold e1; lia).
  rewrite Z.pow_add_r in Hv by lia.
  assert (Hpn : 0 < 2 ^ n) by pow2_pos.
  assert (Hpe : 0 < 2 ^ (eb - e1)) by pow2_pos.
  set (K := Z.pos mb * 2 ^ (eb - e1)) in *.
  assert (HK : m1 <= K).
  { destruct lx as [|c].
    - simpl loc_up in Hv. rewrite Z.add_0_r in Hv.
      assert (mx / 2 ^ n <= K) by (apply Z.div_le_upper_bound; lia).
      destruct (Z.eq_dec (mx / 2 ^ n) K) as [E|E]; [|lia].
      pose proof (Z.div_mod mx (2 ^ n) ltac:(lia)) as Hdm.
      pose proof (Z.mod_pos_bound mx (2 ^ n) Hpn) as Hmb.
      assert (Hmod : mx mod 2 ^ n = 0) by nia.
      unfold m1. rewrite rne_exact by assumption. lia.
    - simpl loc_up in Hv.
      assert (mx / 2 ^ n < K) by (apply Z.div_lt_upper_bound; lia). lia. }
  assert (Hv1 : vle m1 e1 (Zpos mb) eb).
  { apply (vle_shift _ _ _ _ e1); [lia|lia|].
    same_exponent. exact HK. }
  destruct (finish_le m1 e1 mb eb Hm1 Hlo Hc1 Hb Hv1)
    as (p & e' & Hf & Hbp & Hee & Heb & Hpq & Hpb).
  rewrite Hf. unfold within. rewrite Hbp. cbn [andb].
  apply SFleb_of_vle; try assumption.
  apply (vle_shift _ _ _ _ e'); [lia|lia|].
  same_exponent. exact Hpb.
Qed.

(** ** Rounding of an integer mantissa: [binary_round] *)

Lemma pos_iter_xO p d : Zpos (Pos.iter xO p d) = Zpos p * 2 ^ Zpos d.
Proof.
  induction d as [|d IH] using Pos.peano_ind.
  - simpl. lia.
  - rewrite Pos.iter_succ, Pos2Z.inj_xO, IH, Pos2Z.inj_succ, Z.pow_succ_r by lia. lia.
Qed.

Lemma shl_align_spec mx ex ex' :
  snd (shl_align mx ex ex') = Z.min ex ex' /\
  Zpos (fst (shl_align mx ex ex')) = Zpos mx * 2 ^ (ex - Z.min ex ex').
Proof.
  unfold shl_align. destruct (ex' - ex) as [|d|d] eqn:E; cbn [fst snd].
  - replace (Z.min ex ex') with ex by lia. rewrite Z.sub_diag, Z.pow_0_r. lia.
  - replace (Z.min ex ex') with ex by lia. rewrite Z.sub_diag, Z.pow_0_r. lia.
  - replace (Z.min ex ex') with ex' by lia. rewrite pos_iter_xO.
    replace (ex - ex') with (Z.pos d) by lia. lia.
Qed.

(** [binary_round] is [binary_round_aux] on an aligned mantissa. *)
Lemma binary_round_aligned sx p e :
  exists mz ez,
    binary_round prec emax sx p e = binary_round_aux prec emax sx (Zpos mz) ez loc_Exact /\
    ez = Z.min e (fexp64 (Zdigits2 (Zpos p) + e)) /\
    Zpos mz = Zpos p * 2 ^ (e - ez) /\
    Zdigits2 (Zpos mz) + ez = Zdigits2 (Zpos p) + e /\
    ez <= fexp64 (Zdigits2 (Zpos mz) + ez).
Proof.
  unfold binary_round.
  pose proof (shl_align_spec p e (fexp prec emax (Z.pos (digits2_pos p) + e))) as [H1 H2].
  destruct (shl_align p e (fexp prec emax (Z.pos (digits2_pos p) + e))) as [mz ez].
  cbn [fst snd] in H1, H2. exists mz, ez. split; [reflexivity|].
  change (fexp prec emax (Z.pos (digits2_pos p) + e)) with (fexp64 (Zdigits2 (Zpos p) + e)) in *.
  split; [exact H1|]. rewrite <- H1 in H2. split; [exact H2|].
  assert (Hd : Zdigits2 (Z.pos mz) + ez = Zdigits2 (Z.pos p) + e).
  { rewrite H2, Zdigits2_mul_pow by lia. lia. }
  split; [exact Hd|]. rewrite Hd. lia.
Qed.

Lemma binary_round_within p e mb eb :
  bounded prec emax mb eb = true ->
  vle (Zpos p) e (Zpos mb) eb ->
  within (S754_finite false mb eb) (binary_round prec emax false p e) = true.
Proof.
  intros Hb Hv.
  destruct (binary_round_aligned false p e) as (mz & ez & Hr & Hez & Hmz & Hd & Hc).
  rewrite Hr. apply round_aux_within; try assumption; [lia|].
  simpl loc_up. rewrite Z.add_0_r.
  apply (vle_shift _ _ _ _ (Z.min ez eb)); [lia|lia|].
  apply (vle_shift _ _ _ _ (Z.min ez eb)) in Hv; [|lia|lia].
  rewrite Hmz. rewrite <- Z.mul_assoc, <- Z.pow_add_r by lia.
  replace (e - ez + (ez - Z.min ez eb)) with (e - Z.min ez eb) by lia. exact Hv.
Qed.

Lemma binary_normalize_within z e mb eb :
  0 <= z ->
  bounded prec emax mb eb = true ->
  vle z e (Zpos mb) eb ->
  within (S754_finite false mb eb) (binary_normalize prec emax z e false) = true.
Proof.
  intros Hz Hb Hv. destruct z as [|p|p]; [reflexivity| |lia].
  apply binary_round_within; assumption.
Qed.

(** ** The operations of the program *)

Lemma within_inv B x :
  within B x = true ->
  x = S754_zero false \/
  exists m e, x = S754_finite false m e /\ bounded prec emax m e = true /\
              SFleb (S754_finite false m e) B = true.
Proof.
  destruct x as [[|]|[|]| |[|] m e]; simpl; try discriminate.
  - intros _. left; reflexivity.
  - intros H. apply andb_true_iff in H. destruct H as [H1 H2].
    right. exists m, e. auto.
Qed.

Lemma within_finite mb eb m e :
  bounded prec emax m e = true -> bounded prec emax mb eb = true ->
  vle (Zpos m) e (Zpos mb) eb ->
  within (S754_finite false mb eb) (S754_finite false m e) = true.
Proof.
  intros H1 H2 Hv. unfold within. rewrite H1. cbn [andb].
  apply SFleb_of_vle; assumption.
Qed.

(** *** Multiplication *)

Lemma mul_digits a b : 0 < a -> 0 < b -> Zdigits2 a + Zdigits2 b - 1 <= Zdigits2 (a * b).
Proof.
  intros Ha Hb.
  pose proof (Zdigits2_bounds a Ha) as [A1 _]. pose proof (Zdigits2_bounds b Hb) as [B1 _].
  pose proof (Zdigits2_pos a Ha). pose proof (Zdigits2_pos b Hb).
  assert (Hp : 2 ^ (Zdigits2 a + Zdigits2 b - 2) <= a * b).
  { replace (Zdigits2 a + Zdigits2 b - 2) with ((Zdigits2 a - 1) + (Zdigits2 b - 1)) by lia.
    rewrite Z.pow_add_r by lia.
    assert (0 < 2 ^ (Zdigits2 a - 1)) by pow2_pos.
    assert (0 < 2 ^ (Zdigits2 b - 1)) by pow2_pos. nia. }
  assert (Hq : 0 < 2 ^ (Zdigits2 a + Zdigits2 b - 2)) by pow2_pos.
  pose proof (Zdigits2_le _ _ Hq Hp) as Hd.
  rewrite (Zdigits2_unique (2 ^ (Zdigits2 a + Zdigits2 b - 2)) (Zdigits2 a + Zdigits2 b - 1)) in Hd.
  - exact Hd.
  - replace (Zdigits2 a + Zdigits2 b - 1 - 1) with (Zdigits2 a + Zdigits2 b - 2) by lia.
    split; [lia|]. apply Z.pow_lt_mono_r; lia.
  - lia.
Qed.

Lemma mul_within mc ec x mbx ebx mb eb :
  bounded prec emax mc ec = true ->
  bounded prec emax mbx ebx = true ->
  bounded prec emax mb eb = true ->
  within (S754_finite false mbx ebx) x = true ->
  vle (Zpos mc * Zpos mbx) (ec + ebx) (Zpos mb) eb ->
  within (S754_finite false mb eb) (SFmul prec emax (S754_finite false mc ec) x) = true.
Proof.
  intros Hc Hbx Hb Hx Hv.
  destruct (within_inv _ _ Hx) as [->|(mx & ex & -> & Hxb & Hle)]; [reflexivity|].
  cbn [SFmul xorb].
  destruct (vle_of_SFleb _ _ _ _ Hxb Hbx Hle) as [He Hm].
  apply round_aux_within; try assumption; [lia| |].
  - apply bounded_spec in Hc, Hxb. destruct Hc as [Hc _], Hxb as [Hxb _].
    pose proof (mul_digits (Zpos mc) (Zpos mx) ltac:(lia) ltac:(lia)) as Hd.
    pose proof (Zdigits2_pos (Zpos mc) ltac:(lia)).
    pose proof (Zdigits2_pos (Zpos mx) ltac:(lia)).
    rewrite Pos2Z.inj_mul. rewrite fexp64_eq in *. lia.
  - simpl loc_up. rewrite Z.add_0_r, Pos2Z.inj_mul.
    set (c := Z.min (ec + ex) eb).
    apply (vle_shift _ _ _ _ c); [lia|lia|].
    apply (vle_shift _ _ _ _ c) in Hv; [|lia|lia].
    eapply Z.le_trans; [|exact Hv].
    replace (ec + ebx - c) with ((ebx - ex) + (ec + ex - c)) by lia.
    rewrite Z.pow_add_r by lia.
    assert (0 < 2 ^ (ec + ex - c)) by pow2_pos.
    assert (0 < 2 ^ (ebx - ex)) by pow2_pos.
    nia.
Qed.

Lemma SFmul_comm x y : SFmul prec emax x y = SFmul prec emax y x.
Proof.
  destruct x as [sx|sx| |sx mx ex], y as [sy|sy| |sy my ey]; simpl;
    rewrite ?(xorb_comm sx sy), ?(Pos.mul_comm mx my), ?(Z.add_comm ex ey); reflexivity.
Qed.

(** *** Subtraction from a bound and addition of two halves *)

Lemma sub_within mb eb x :
  bounded prec emax mb eb = true ->
  within (S754_finite false mb eb) x = true ->
  within (S754_finite false mb eb) (SFsub prec emax (S754_finite false mb eb) x) = true.
Proof.
  intros Hb Hx.
  destruct (within_inv _ _ Hx) as [->|(mx & ex & -> & Hxb & Hle)].
  - cbn [SFsub]. apply within_finite; try assumption.
    unfold vle. rewrite Z.min_id. lia.
  - destruct (vle_of_SFleb _ _ _ _ Hxb Hb Hle) as [He Hm].
    cbn [SFsub cond_Zopp].
    pose proof (shl_align_spec mb eb (Z.min eb ex)) as [_ H1].
    pose proof (shl_align_spec mx ex (Z.min eb ex)) as [_ H2].
    rewrite H1, H2. clear H1 H2.
    replace (Z.min eb (Z.min eb ex)) with ex by lia.
    replace (Z.min ex (Z.min eb ex)) with ex by lia.
    replace (Z.min eb ex) with ex by lia.
    same_exponent.
    apply binary_normalize_within; [lia|assumption|].
    apply (vle_shift _ _ _ _ ex); [lia|lia|].
    same_exponent. lia.
Qed.

Lemma within_double mh eh x :
  bounded prec emax mh eh = true -> bounded prec emax mh (eh + 1) = true ->
  within (S754_finite false mh eh) x = true ->
  within (S754_finite false mh (eh + 1)) x = true.
Proof.
  intros Hb Hb' Hx.
  destruct (within_inv _ _ Hx) as [->|(mx & ex & -> & Hxb & Hle)]; [reflexivity|].
  destruct (vle_of_SFleb _ _ _ _ Hxb Hb Hle) as [He Hm].
  apply within_finite; try assumption.
  apply (vle_shift _ _ _ _ ex); [lia|lia|].
  same_exponent.
  replace (eh + 1 - ex) with ((eh - ex) + 1) by lia.
  rewrite Z.pow_add_r by lia.
  assert (0 < 2 ^ (eh - ex)) by pow2_pos. lia.
Qed.

Lemma add_within mh eh x y :
  bounded prec emax mh eh = true -> bounded prec emax mh (eh + 1) = true ->
  within (S754_finite false mh eh) x = true ->
  within (S754_finite false mh eh) y = true ->
  within (S754_finite false mh (eh + 1)) (SFadd prec emax x y) = true.
Proof.
  intros Hb Hb' Hx Hy.
  pose proof (within_double _ _ _ Hb Hb' Hx) as Hx'.
  pose proof (within_double _ _ _ Hb Hb' Hy) as Hy'.
  destruct (within_inv _ _ Hx) as [->|(mx & ex & -> & Hxb & Hlx)];
    destruct (within_inv _ _ Hy) as [->|(my & ey & -> & Hyb & Hly)];
    try (cbn [SFadd]; assumption).
  destruct (vle_of_SFleb _ _ _ _ Hxb Hb Hlx) as [Hex Hmx].
  destruct (vle_of_SFleb _ _ _ _ Hyb Hb Hly) as [Hey Hmy].
  cbn [SFadd cond_Zopp].
  pose proof (shl_align_spec mx ex (Z.min ex ey)) as [_ H1].
  pose proof (shl_align_spec my ey (Z.min ex ey)) as [_ H2].
  rewrite H1, H2. clear H1 H2.
  replace (Z.min ex (Z.min ex ey)) with (Z.min ex ey) by lia.
  replace (Z.min ey (Z.min ex ey)) with (Z.min ex ey) by lia.
  set (ez := Z.min ex ey).
  assert (0 < 2 ^ (ex - ez)) by pow2_pos.
  assert (0 < 2 ^ (ey - ez)) by pow2_pos.
  apply binary_normalize_within; [lia|assumption|].
  apply (vle_shift _ _ _ _ ez); [lia|lia|].
  same_exponent.
  assert (Z.pos mx * 2 ^ (ex - ez) <= Z.pos mh * 2 ^ (eh - ez)).
  { replace (eh - ez) with ((eh - ex) + (ex - ez)) by lia.
    rewrite Z.pow_add_r by lia. nia. }
  assert (Z.pos my * 2 ^ (ey - ez) <= Z.pos mh * 2 ^ (eh - ez)).
  { replace (eh - ez) with ((eh - ey) + (ey - ez)) by lia.
    rewrite Z.pow_add_r by lia. nia. }
  replace (eh + 1 - ez) with ((eh - ez) + 1) by lia.
  rewrite Z.pow_add_r by lia. lia.
Qed.

(** *** Division of a smaller by a larger number *)

Lemma new_location_up n r : loc_up (new_location n r) = if r =? 0 then 0 else 1.
Proof.
  unfold new_location, new_location_even, new_location_odd.
  destruct (Z.even n); destruct (r =? 0); reflexivity.
Qed.

Lemma div_digits a b :
  0 < a -> 0 < b -> 0 < a / b -> Zdigits2 a - Zdigits2 b <= Zdigits2 (a / b).
Proof.
  intros Ha Hb Hq.
  pose proof (Zdigits2_bounds a Ha) as [A1 _].
  pose proof (Zdigits2_bounds b Hb) as [_ B2].
  pose proof (Zdigits2_bounds (a / b) Hq) as [_ Q2].
  pose proof (Zdigits2_pos a Ha). pose proof (Zdigits2_pos b Hb).
  pose proof (Zdigits2_pos (a / b) Hq).
  pose proof (Z.div_mod a b ltac:(lia)) as Hdm.
  pose proof (Z.mod_pos_bound a b Hb) as Hmb.
  destruct (Z.le_gt_cases (Zdigits2 a - Zdigits2 b) (Zdigits2 (a / b))) as [|Hgt]; [assumption|].
  exfalso.
  (* a < (q + 1) * b <= 2^dq * 2^db <= 2^(da - 1) *)
  assert (H2 : 2 ^ Zdigits2 (a / b) * 2 ^ Zdigits2 b <= 2 ^ (Zdigits2 a - 1)).
  { rewrite <- Z.pow_add_r by lia. apply Z.pow_le_mono_r; lia. }
  assert (0 < 2 ^ Zdigits2 b) by pow2_pos.
  nia.
Qed.

Lemma div_within x my ey :
  bounded prec emax my ey = true ->
  within (S754_finite false my ey) x = true ->
  within (S754_finite false 4503599627370496 (-52))
         (SFdiv prec emax x (S754_finite false my ey)) = true.
Proof.
  intros Hy Hx.
  destruct (within_inv _ _ Hx) as [->|(mx & ex & -> & Hxb & Hle)]; [reflexivity|].
  destruct (vle_of_SFleb _ _ _ _ Hxb Hy Hle) as [He Hm].
  assert (Hv : vle (Zpos mx) ex (Zpos my) ey).
  { apply (vle_shift _ _ _ _ ex); [lia|lia|]. rewrite Z.sub_diag, Z.pow_0_r. lia. }
  destruct (vle_digits (Zpos mx) ex (Zpos my) ey ltac:(lia) Hv) as [_ Hd].
  cbn [SFdiv xorb]. unfold SFdiv_core_binary.
  set (d1 := Zdigits2 (Zpos mx)) in *. set (d2 := Zdigits2 (Zpos my)) in *.
  fold (fexp64 (d1 + ex - (d2 + ey))).
  set (e' := Z.min (fexp64 (d1 + ex - (d2 + ey))) (ex - ey)).
  set (s := ex - ey - e').
  assert (Hs : 0 <= s) by (unfold s, e'; lia).
  assert (He' : e' <= -53) by (unfold e'; rewrite fexp64_eq; lia).
  set (m' := match s with Z.pos _ => Z.shiftl (Zpos mx) s | 0 => Zpos mx | Z.neg _ => 0 end).
  assert (Hm' : m' = Zpos mx * 2 ^ s).
  { unfold m'. destruct s as [|p|p] eqn:E.
    - rewrite Z.pow_0_r. lia.
    - apply Z.shiftl_mul_pow2. lia.
    - lia. }
  clearbody m'.
  pose proof (Z.div_mod m' (Zpos my) ltac:(lia)) as Hdm.
  pose proof (Z.mod_pos_bound m' (Zpos my) ltac:(lia)) as Hmb.
  unfold Z.div, Z.modulo in Hdm, Hmb.
  destruct (Z.div_eucl m' (Z.pos my)) as [q r]. cbn [fst snd] in Hdm, Hmb.
  assert (Hps : 0 < 2 ^ s) by pow2_pos.
  assert (Hq : 0 <= q) by nia.
  assert (Hpe : 0 < 2 ^ (- e')) by pow2_pos.
  (* m' <= my * 2^(-e') *)
  assert (Hbound : m' <= Zpos my * 2 ^ (- e')).
  { rewrite Hm'. replace (- e') with ((ey - ex) + s) by (unfold s; lia).
    rewrite Z.pow_add_r by lia.
    assert (0 < 2 ^ (ey - ex)) by pow2_pos. nia. }
  apply round_aux_within; [assumption| |reflexivity|].
  - (* the quotient is long enough *)
    destruct (Z.eq_dec q 0) as [->|Hq0].
    + simpl Zdigits2. assert (Hlt : m' < Zpos my) by lia.
      assert (Hdd : Zdigits2 m' <= d2).
      { apply Zdigits2_le; [rewrite Hm'; nia|lia]. }
      rewrite Hm', Zdigits2_mul_pow in Hdd by lia. fold d1 in Hdd.
      unfold s, e' in Hdd. rewrite !fexp64_eq in *. unfold e'. rewrite fexp64_eq. lia.
    + assert (Hqd : q = m' / Zpos my).
      { apply Z.div_unique with r; [lia|lia]. }
      pose proof (div_digits m' (Zpos my) ltac:(rewrite Hm'; nia) ltac:(lia) ltac:(lia)) as Hdq.
      rewrite <- Hqd in Hdq. rewrite Hm', Zdigits2_mul_pow in Hdq by lia.
      fold d1 d2 in Hdq. unfold s in Hdq.
      assert (Hge : d1 + ex - (d2 + ey) <= Zdigits2 q + e') by lia.
      assert (He'le : e' <= fexp64 (d1 + ex - (d2 + ey))) by (unfold e'; lia).
      rewrite !fexp64_eq in *. lia.
  - rewrite new_location_up.
    apply (vle_shift _ _ _ _ e'); [lia|lia|].
    same_exponent.
    assert (E : 4503599627370496 * 2 ^ (-52 - e') = 2 ^ (- e')).
    { change 4503599627370496 with (2 ^ 52). rewrite <- Z.pow_add_r by lia.
      f_equal. lia. }
    rewrite E.
    destruct (Z.eqb_spec r 0); nia.
Qed.

(** *** Conversion of an integer: monotone *)

Lemma mod_split m n :
  0 < n ->
  m mod 2 ^ n = m mod 2 ^ (n - 1) + 2 ^ (n - 1) * (if Z.odd (m / 2 ^ (n - 1)) then 1 else 0).
Proof.
  intros Hn. rewrite <- Zmod_odd.
  replace (2 ^ n) with (2 ^ (n - 1) * 2).
  - apply Z.rem_mul_r; [apply Z.pow_nonzero; lia|lia].
  - replace n with (n - 1 + 1) at 2 by lia. rewrite Z.pow_add_r by lia. reflexivity.
Qed.

Lemma rne_mono a b n :
  0 <= a <= b -> 0 <= n -> rne a loc_Exact n <= rne b loc_Exact n.
Proof.
  intros Hab Hn. unfold rne. destruct (Z.ltb_spec 0 n) as [Hpos|Hz].
  - assert (Hp : 0 < 2 ^ n) by pow2_pos.
    assert (Hh : 0 < 2 ^ (n - 1)) by pow2_pos.
    assert (Hpn : 2 ^ n = 2 * 2 ^ (n - 1)).
    { replace n with (n - 1 + 1) at 1 by lia. rewrite Z.pow_add_r by lia. lia. }
    pose proof (Z.div_le_mono a b (2 ^ n) Hp (proj2 Hab)) as Hq.
    pose proof (Z.div_mod a (2 ^ n) ltac:(lia)) as Ha.
    pose proof (Z.div_mod b (2 ^ n) ltac:(lia)) as Hb.
    pose proof (mod_split a n Hpos) as Sa. pose proof (mod_split b n Hpos) as Sb.
    pose proof (Z.mod_pos_bound a (2 ^ (n - 1)) Hh) as Ba.
    pose proof (Z.mod_pos_bound b (2 ^ (n - 1)) Hh) as Bb.
    cbn [loc_r loc_s shr_record_of_loc shr_r shr_s orb].
    destruct (Z.eq_dec (a / 2 ^ n) (b / 2 ^ n)) as [E|E].
    + rewrite <- E in *. set (q := a / 2 ^ n) in *.
      assert (Hm : a mod 2 ^ n <= b mod 2 ^ n) by lia.
      revert Sa Sb.
      destruct (Z.odd (a / 2 ^ (n - 1))); destruct (Z.odd (b / 2 ^ (n - 1)));
        destruct (Z.eqb_spec (a mod 2 ^ (n - 1)) 0);
        destruct (Z.eqb_spec (b mod 2 ^ (n - 1)) 0);
        destruct (Z.odd q); cbn [andb orb negb]; intros Sa Sb; lia.
    + assert (a / 2 ^ n + 1 <= b / 2 ^ n) by lia.
      destruct (_ && _); destruct (_ && _); lia.
  - cbn. lia.
Qed.

Lemma finish_exact m e :
  2 ^ 52 <= m <= 2 ^ 53 -> -1074 <= e <= 900 ->
  exists p e', finish false m e = S754_finite false p e' /\
    bounded prec emax p e' = true /\ e <= e' /\ Zpos p * 2 ^ (e' - e) = m.
Proof.
  intros Hm He.
  assert (Hd : Zdigits2 m = 53 \/ (m = 2 ^ 53 /\ Zdigits2 m = 54)).
  { destruct (Z.eq_dec m (2 ^ 53)) as [->|Hne].
    - right. split; reflexivity.
    - left. apply Zdigits2_unique; lia. }
  assert (Hc : e <= fexp64 (Zdigits2 m + e)) by (rewrite fexp64_eq; lia).
  destruct (finish_spec m e ltac:(lia) ltac:(lia) Hc) as (p & Hp & Hf & Hcan).
  set (k := fexp64 (Zdigits2 m + e) - e) in *.
  assert (Hk : k = 0 \/ (k = 1 /\ m = 2 ^ 53)).
  { unfold k. rewrite fexp64_eq. destruct Hd as [Hd|[Hd1 Hd2]]; lia. }
  exists p, (e + k). rewrite Hf.
  replace (e + k <=? 971) with true by (symmetry; apply Z.leb_le; lia).
  split; [reflexivity|]. split; [apply bounded_spec; split; [exact Hcan|lia]|].
  split; [lia|]. replace (e + k - e) with k by lia. rewrite Hp.
  destruct Hk as [->|[-> ->]].
  - rewrite Z.pow_0_r, Z.div_1_r. lia.
  - reflexivity.
Qed.

(** The two stages of the conversion of a positive integer below [2^64]. *)
Lemma of_Z_stages b :
  0 < b < 2 ^ 64 ->
  let e1 := Zdigits2 b - 53 in
  let ez := Z.min 0 e1 in
  let m1 := rne (b * 2 ^ (- ez)) loc_Exact (e1 - ez) in
  of_Z b = finish false m1 e1 /\ 2 ^ 52 <= m1 <= 2 ^ 53.
Proof.
  intros Hb e1 ez m1. destruct b as [|p|p]; try lia.
  pose proof (Zdigits2_pos (Zpos p) ltac:(lia)) as Hd1.
  assert (Hd2 : Zdigits2 (Zpos p) <= 64).
  { destruct (Z.le_gt_cases (Zdigits2 (Zpos p)) 64) as [|Hgt]; [assumption|].
    pose proof (Zdigits2_bounds (Zpos p) ltac:(lia)) as [B _].
    assert (2 ^ 64 <= 2 ^ (Zdigits2 (Z.pos p) - 1)) by (apply Z.pow_le_mono_r; lia). lia. }
  unfold of_Z. cbn [binary_normalize].
  destruct (binary_round_aligned false p 0) as (mz & ez' & Hr & Hez & Hmz & Hd & Hc).
  rewrite Z.add_0_r in *. rewrite fexp64_eq in Hez.
  assert (Eez : ez' = ez) by (unfold ez, e1; lia).
  rewrite Hr, binary_round_aux_stages, (round1_spec (Zpos mz) ez' loc_Exact ltac:(lia)).
  cbn [fst snd].
  assert (Hn : fexp64 (Zdigits2 (Z.pos mz) + ez') - ez' = e1 - ez).
  { rewrite Hd, fexp64_eq. unfold e1. lia. }
  rewrite Hn.
  replace (if 0 <? e1 - ez then ez' + (e1 - ez) else ez') with e1
    by (destruct (Z.ltb_spec 0 (e1 - ez)); lia).
  rewrite Hmz. replace (0 - ez') with (- ez) by lia. fold m1.
  split; [reflexivity|].
  assert (Hmz' : Zpos mz = Zpos p * 2 ^ (- ez)) by (rewrite Hmz; f_equal; f_equal; lia).
  assert (Hn0 : 0 <= e1 - ez) by lia.
  pose proof (rne_bounds (Zpos p * 2 ^ (- ez)) loc_Exact (e1 - ez)
                ltac:(rewrite <- Hmz'; lia) Hn0) as Hr1.
  fold m1 in Hr1.
  assert (Hdq : Zdigits2 (Zpos mz / 2 ^ (e1 - ez)) = 53).
  { rewrite Zdigits2_div_pow by lia. lia. }
  assert (Hq : 0 < Zpos mz / 2 ^ (e1 - ez)).
  { destruct (Z.eq_dec (Zpos mz / 2 ^ (e1 - ez)) 0) as [E|E].
    - rewrite E in Hdq. discriminate.
    - assert (0 <= Zpos mz / 2 ^ (e1 - ez)) by (apply Z.div_pos; [lia|pow2_pos]).
      lia. }
  pose proof (Zdigits2_bounds _ Hq) as Bq. rewrite Hdq in Bq.
  rewrite <- Hmz' in Hr1. change (2 ^ (53 - 1)) with (2 ^ 52) in Bq. lia.
Qed.

Lemma of_Z_finite b :
  0 < b < 2 ^ 64 ->
  exists p e, of_Z b = S754_finite false p e /\ bounded prec emax p e = true /\
    Zdigits2 b - 53 <= e /\
    2 ^ 52 <= Zpos p * 2 ^ (e - (Zdigits2 b - 53)) <= 2 ^ 53.
Proof.
  intros Hb. destruct (of_Z_stages b Hb) as [Hs Hm].
  pose proof (Zdigits2_pos b ltac:(lia)) as Hd1.
  assert (Hd2 : Zdigits2 b <= 64).
  { destruct (Z.le_gt_cases (Zdigits2 b) 64) as [|Hgt]; [assumption|].
    pose proof (Zdigits2_bounds b ltac:(lia)) as [B _].
    assert (2 ^ 64 <= 2 ^ (Zdigits2 b - 1)) by (apply Z.pow_le_mono_r; lia). lia. }
  destruct (finish_exact _ (Zdigits2 b - 53) Hm ltac:(lia)) as (p & e & Hf & Hbd & Hle & Hv).
  exists p, e. rewrite Hs, Hf. repeat split; try assumption; rewrite Hv; lia.
Qed.

Lemma of_Z_mono a b :
  0 <= a <= b -> 0 < b < 2 ^ 64 -> within (of_Z b) (of_Z a) = true.
Proof.
  intros Hab Hb.
  destruct (Z.eq_dec a 0) as [->|Ha0]; [reflexivity|].
  assert (Ha : 0 < a < 2 ^ 64) by lia.
  destruct (of_Z_stages a Ha) as [Sa Ma]. destruct (of_Z_stages b Hb) as [Sb Mb].
  pose proof (Zdigits2_pos a ltac:(lia)) as Hda.
  pose proof (Zdigits2_le a b ltac:(lia) ltac:(lia)) as Hdab.
  assert (Hdb : Zdigits2 b <= 64).
  { destruct (Z.le_gt_cases (Zdigits2 b) 64) as [|Hgt]; [assumption|].
    pose proof (Zdigits2_bounds b ltac:(lia)) as [B _].
    assert (2 ^ 64 <= 2 ^ (Zdigits2 b - 1)) by (apply Z.pow_le_mono_r; lia). lia. }
  destruct (finish_exact _ (Zdigits2 b - 53) Mb ltac:(lia)) as (pb & eb & Hfb & Hbb & Hleb & Hvb).
  rewrite Sb in *. rewrite Hfb.
  destruct (Z.eq_dec (Zdigits2 a) (Zdigits2 b)) as [E|E].
  - (* same binade: the mantissas are rounded on the same grid *)
    rewrite Sa. rewrite E in *.
    set (e1 := Zdigits2 b - 53) in *. set (ez := Z.min 0 e1) in *.
    assert (Hp : 0 < 2 ^ (- ez)) by pow2_pos.
    pose proof (rne_mono (a * 2 ^ (- ez)) (b * 2 ^ (- ez)) (e1 - ez) ltac:(nia) ltac:(lia)) as Hmono.
    set (ma := rne (a * 2 ^ (- ez)) loc_Exact (e1 - ez)) in *.
    set (mb := rne (b * 2 ^ (- ez)) loc_Exact (e1 - ez)) in *.
    assert (Hv : vle ma e1 (Zpos pb) eb).
    { apply (vle_shift _ _ _ _ e1); [lia|lia|].
      same_exponent. lia. }
    assert (Hd : Zdigits2 ma = 53 \/ Zdigits2 ma = 54).
    { destruct (Z.eq_dec ma (2 ^ 53)) as [->|Hne]; [right; reflexivity|].
      left. apply Zdigits2_unique; lia. }
    assert (Hc : e1 <= fexp64 (Zdigits2 ma + e1)) by (rewrite fexp64_eq; lia).
    destruct (finish_le ma e1 pb eb ltac:(lia) ltac:(unfold e1; lia) Hc Hbb Hv)
      as (p & e' & Hf & Hbp & _ & Hle' & _ & Hpb).
    rewrite Hf. apply within_finite; try assumption.
    apply (vle_shift _ _ _ _ e'); [lia|lia|].
    same_exponent. exact Hpb.
  - (* a lower binade: a power of two lies in between *)
    unfold of_Z. apply binary_normalize_within; [lia|assumption|].
    set (e1 := Zdigits2 b - 53) in *.
    pose proof (Zdigits2_bounds a ltac:(lia)) as [_ Ba].
    set (c := Z.min 0 e1).
    apply (vle_shift _ _ _ _ c); [lia|lia|].
    replace (eb - c) with ((eb - e1) + (e1 - c)) by lia.
    rewrite Z.pow_add_r, Z.mul_assoc, Hvb by lia.
    assert (Hpc : 0 < 2 ^ (0 - c)) by pow2_pos.
    assert (Hpa : 2 ^ Zdigits2 a <= 2 ^ (Zdigits2 b - 1)) by (apply Z.pow_le_mono_r; lia).
    assert (Hsplit : 2 ^ (Zdigits2 b - 1) * 2 ^ (0 - c) = 2 ^ 52 * 2 ^ (e1 - c)).
    { rewrite <- !Z.pow_add_r by lia. f_equal. unfold e1. lia. }
    assert (0 < 2 ^ (e1 - c)) by pow2_pos.
    nia.
Qed.

End DoubleFacts.

(** * The load sampler

    With a total that did not wrap, [0 <= idle_diff <= total_diff], and each
    operation of lines 155-156 keeps its result between 0 and its bound:
    the quotient and [1.0 - quotient] below 1, the product below 100, the two
    halves below 50 and their sum below 100. *)

Lemma within_in_range l : Double.within lit_100_0 l = true -> in_range l = true.
Proof.
  intros H. destruct (DoubleFacts.within_inv _ _ H) as [->|(m & e & -> & _ & Hle)].
  - reflexivity.
  - unfold in_range. unfold Double.leb at 2. rewrite Hle. reflexivity.
Qed.

Lemma currentLoad_within i t :
  0 <= i <= t -> 0 < t < 2 ^ 64 ->
  Double.within lit_100_0 (currentLoad_of i t) = true.
Proof.
  intros Hi Ht. unfold currentLoad_of, cast_double.
  pose proof (DoubleFacts.of_Z_mono i t Hi Ht) as Hmono.
  destruct (DoubleFacts.of_Z_finite t Ht) as (p & e & Ep & Hb & _).
  rewrite Ep in *.
  pose proof (DoubleFacts.div_within _ _ _ Hb Hmono) as Hq.
  pose proof (DoubleFacts.sub_within 4503599627370496 (-52) _ eq_refl Hq) as Hd.
  exact (DoubleFacts.mul_within 7036874417766400 (-46) _ 4503599627370496 (-52)
           7036874417766400 (-46) eq_refl eq_refl eq_refl Hd ltac:(vm_compute; discriminate)).
Qed.

Lemma smooth_within l c :
  Double.within lit_100_0 l = true -> Double.within lit_100_0 c = true ->
  Double.within lit_100_0 (smooth l c) = true.
Proof.
  intros Hl Hc. unfold smooth.
  change (Double.sub lit_1_0 ACTIVITY_SMOOTHING) with ACTIVITY_SMOOTHING.
  unfold Double.mul. rewrite (DoubleFacts.SFmul_comm l), (DoubleFacts.SFmul_comm c).
  assert (H : forall x, Double.within lit_100_0 x = true ->
            Double.within (S754_finite false 7036874417766400 (-47))
              (SFmul Double.prec Double.emax ACTIVITY_SMOOTHING x) = true).
  { intros x Hx.
    exact (DoubleFacts.mul_within 4503599627370496 (-53) x 7036874417766400 (-46)
             7036874417766400 (-47) eq_refl eq_refl eq_refl Hx
             ltac:(vm_compute; discriminate)). }
  exact (DoubleFacts.add_within 7036874417766400 (-47) _ _ eq_refl eq_refl
           (H l Hl) (H c Hc)).
Qed.

(** The equations of [getCPULoad], one for each path through it. *)

Lemma getCPULoad_failed junk m : getCPULoad None junk m = (cpuLoad m, m).
Proof. reflexivity. Qed.

Lemma getCPULoad_calibration s junk m :
  initialized m = false ->
  getCPULoad (Some s) junk m =
  (lit_0_0, {| lastStats := s; cpuLoad := cpuLoad m; initialized := true |}).
Proof. intros H. unfold getCPULoad. simpl. rewrite H. reflexivity. Qed.

Lemma getCPULoad_no_progress s junk m :
  initialized m = true ->
  usub (total s) (total (lastStats m)) = 0 ->
  getCPULoad (Some s) junk m =
  (cpuLoad m, {| lastStats := s; cpuLoad := cpuLoad m; initialized := true |}).
Proof.
  intros H Hd. unfold getCPULoad. simpl. rewrite H, Hd. reflexivity.
Qed.

Lemma getCPULoad_progress s junk m :
  initialized m = true ->
  usub (total s) (total (lastStats m)) <> 0 ->
  let load :=
    smooth (cpuLoad m)
      (currentLoad_of (usub (idle_total s) (idle_total (lastStats m)))
                      (usub (total s) (total (lastStats m)))) in
  getCPULoad (Some s) junk m =
  (load, {| lastStats := s; cpuLoad := load; initialized := true |}).
Proof.
  intros H Hd load. unfold getCPULoad. simpl. rewrite H.
  apply Z.eqb_neq in Hd. rewrite Hd. reflexivity.
Qed.

(** Without overflow the sums of lines 140-147 are the sums of the counters. *)
Lemma sums_exact s :
  is_u64 s = true -> sum_fits s = true ->
  total s = user s + nice s + system s + idle s + iowait s + irq s + softirq s /\
  idle_total s = idle s + iowait s /\
  0 <= user s /\ 0 <= nice s /\ 0 <= system s /\ 0 <= idle s /\ 0 <= iowait s /\
  0 <= irq s /\ 0 <= softirq s /\
  user s + nice s + system s + idle s + iowait s + irq s + softirq s < 2 ^ 64.
Proof.
  unfold is_u64, sum_fits, counters. cbn [forallb].
  rewrite !andb_true_iff, !Z.leb_le, !Z.ltb_lt. intros H Hs.
  unfold total, idle_total, uadd, u64.
  repeat match goal with
         | |- context [?a mod 2 ^ 64] => rewrite (Z.mod_small a (2 ^ 64)) by lia
         end.
  lia.
Qed.

Lemma stats_leb_spec p s :
  stats_leb p s = true ->
  user p <= user s /\ nice p <= nice s /\ system p <= system s /\
  idle p <= idle s /\ iowait p <= iowait s /\ irq p <= irq s /\
  softirq p <= softirq s.
Proof. unfold stats_leb. rewrite !andb_true_iff, !Z.leb_le. tauto. Qed.

(** One diffing call keeps the smoothed load between 0 and 100. *)
Lemma getCPULoad_within p s junk m :
  initialized m = true -> lastStats m = p ->
  is_u64 p = true -> sum_fits p = true ->
  is_u64 s = true -> sum_fits s = true -> stats_leb p s = true ->
  Double.within lit_100_0 (cpuLoad m) = true ->
  Double.within lit_100_0 (fst (getCPULoad (Some s) junk m)) = true /\
  Double.within lit_100_0 (cpuLoad (snd (getCPULoad (Some s) junk m))) = true /\
  initialized (snd (getCPULoad (Some s) junk m)) = true /\
  lastStats (snd (getCPULoad (Some s) junk m)) = s.
Proof.
  intros Hi Hl Hp1 Hp2 Hs1 Hs2 Hle Hw.
  destruct (sums_exact p Hp1 Hp2) as (Tp & Ip & Pp).
  destruct (sums_exact s Hs1 Hs2) as (Ts & Is & Ps).
  pose proof (stats_leb_spec p s Hle) as L.
  destruct (Z.eq_dec (usub (total s) (total (lastStats m))) 0) as [E|E].
  - rewrite (getCPULoad_no_progress s junk m Hi E). cbn [fst snd cpuLoad initialized lastStats].
    auto.
  - rewrite (getCPULoad_progress s junk m Hi E). cbn [fst snd cpuLoad initialized lastStats].
    assert (Hsm : Double.within lit_100_0
             (smooth (cpuLoad m)
                (currentLoad_of (usub (idle_total s) (idle_total (lastStats m)))
                   (usub (total s) (total (lastStats m))))) = true).
    { apply smooth_within; [assumption|].
      revert E. rewrite Hl. unfold usub, u64. rewrite Tp, Ts, Ip, Is.
      repeat match goal with
             | |- context [?a mod 2 ^ 64] => rewrite (Z.mod_small a (2 ^ 64)) by lia
             end.
      intros E.
      apply currentLoad_within; lia. }
    auto.
Qed.

Lemma sample_all_within reads :
  forall prev m,
    Double.within lit_100_0 (cpuLoad m) = true ->
    (initialized m = true ->
     prev = Some (lastStats m) /\ is_u64 (lastStats m) = true /\
     sum_fits (lastStats m) = true) ->
    monotone_from prev (map fst reads) = true ->
    no_overflow (map fst reads) = true ->
    forallb in_range (fst (sample_all m reads)) = true /\
    in_range (cpuLoad (snd (sample_all m reads))) = true.
Proof.
  induction reads as [|[r junk] reads IH]; intros prev m Hw Hinit Hmono Hfit.
  - cbn. split; [reflexivity|]. apply within_in_range; assumption.
  - cbn [sample_all map fst monotone_from no_overflow forallb] in *.
    destruct r as [s|].
    + apply andb_true_iff in Hmono. destruct Hmono as [Hmono Hrest].
      apply andb_true_iff in Hmono. destruct Hmono as [Hu Hle].
      apply andb_true_iff in Hfit. destruct Hfit as [Hsf Hfit].
      destruct (initialized m) eqn:Ei.
      * destruct (Hinit eq_refl) as (-> & Hpu & Hpf).
        destruct (getCPULoad_within (lastStats m) s junk m Ei eq_refl Hpu Hpf Hu Hsf Hle Hw)
          as (W1 & W2 & I2 & L2).
        destruct (getCPULoad (Some s) junk m) as [l m'] eqn:Eg. cbn [fst snd] in *.
        specialize (IH (Some s) m' W2).
        destruct (sample_all m' reads) as [ls m''] eqn:Es. cbn [fst snd forallb] in *.
        rewrite (within_in_range l W1). cbn [andb].
        apply IH; try assumption. intros _. rewrite L2. auto.
      * rewrite (getCPULoad_calibration s junk m Ei).
        specialize (IH (Some s)
          {| lastStats := s; cpuLoad := cpuLoad m; initialized := true |} Hw).
        destruct (sample_all _ reads) as [ls m''] eqn:Es. cbn [fst snd forallb] in *.
        change (in_range lit_0_0) with true. cbn [andb].
        apply IH; try assumption. cbn. auto.
    + rewrite getCPULoad_failed.
      specialize (IH prev m Hw Hinit Hmono Hfit).
      destruct (sample_all m reads) as [ls m''] eqn:Es. cbn [fst snd forallb] in *.
      rewrite (within_in_range _ Hw). cbn [andb]. exact IH.
Qed.

(** Sequences of calls. *)

Lemma sample_all_failures junks m :
  sample_all m (map (pair None) junks) = (map (fun _ => cpuLoad m) junks, m).
Proof.
  induction junks as [|j junks IH]; [reflexivity|].
  cbn [map sample_all]. rewrite getCPULoad_failed, IH. reflexivity.
Qed.

Lemma sample_all_app m r1 r2 :
  sample_all m (r1 ++ r2) =
  (fst (sample_all m r1) ++ fst (sample_all (snd (sample_all m r1)) r2),
   snd (sample_all (snd (sample_all m r1)) r2)).
Proof.
  revert m. induction r1 as [|[p j] r1 IH]; intros m.
  - cbn. destruct (sample_all m r2); reflexivity.
  - cbn [app sample_all]. destruct (getCPULoad p j m) as [l m'].
    rewrite IH. destruct (sample_all m' r1) as [ls m''].
    cbn [fst snd]. destruct (sample_all m'' r2); reflexivity.
Qed.

(** * The flash policy *)

Lemma flash_step_monitor gen load now st :
  monitor (flash_step gen load now st) = monitor st /\
  running (flash_step gen load now st) = running st.
Proof.
  unfold flash_step.
  destruct (isGreen st && _); [split; reflexivity|].
  destruct (negb (isGreen st) && _ && _); [|split; reflexivity].
  destruct (Double.ltb _ _); split; reflexivity.
Qed.

Lemma clamp_duration_bounds d :
  MIN_FLASH_DURATION_MS <= clamp_duration d <= MAX_FLASH_DURATION_MS.
Proof. unfold clamp_duration, MIN_FLASH_DURATION_MS, MAX_FLASH_DURATION_MS. lia. Qed.

Lemma flash_step_duration gen load now st :
  MIN_FLASH_DURATION_MS <= currentFlashDuration st <= MAX_FLASH_DURATION_MS ->
  MIN_FLASH_DURATION_MS <= currentFlashDuration (flash_step gen load now st)
    <= MAX_FLASH_DURATION_MS.
Proof.
  intros H. unfold flash_step.
  destruct (isGreen st && _); [exact H|].
  destruct (negb (isGreen st) && _ && _); [|exact H].
  destruct (Double.ltb _ _); [|exact H].
  apply clamp_duration_bounds.
Qed.

Lemma loop_body_duration gen i st :
  MIN_FLASH_DURATION_MS <= currentFlashDuration st <= MAX_FLASH_DURATION_MS ->
  MIN_FLASH_DURATION_MS <= currentFlashDuration (loop_body gen i st)
    <= MAX_FLASH_DURATION_MS.
Proof.
  intros H. unfold loop_body.
  destruct (getCPULoad (procstat i) (stack i) (monitor st)) as [load m].
  apply flash_step_duration. exact H.
Qed.

Lemma iterate_duration gen ins :
  forall st,
    MIN_FLASH_DURATION_MS <= currentFlashDuration st <= MAX_FLASH_DURATION_MS ->
    MIN_FLASH_DURATION_MS <= currentFlashDuration (iterate gen ins st)
      <= MAX_FLASH_DURATION_MS.
Proof.
  unfold iterate. induction ins as [|i ins IH]; intros st H; [exact H|].
  cbn [fold_left]. apply IH, loop_body_duration, H.
Qed.

(** * The integer part of a bounded double *)

Lemma cast_int_in_range x v :
  Double.trunc x = Some v -> INT_MIN <= v <= INT_MAX -> cast_int x = v.
Proof.
  intros Ht Hv. unfold cast_int. rewrite Ht.
  destruct x; try discriminate; lia.
Qed.

Lemma trunc_within mb eb x :
  eb <= 0 -> bounded Double.prec Double.emax mb eb = true ->
  Double.within (S754_finite false mb eb) x = true ->
  exists v, Double.trunc x = Some v /\ 0 <= v <= Zpos mb / 2 ^ (- eb).
Proof.
  intros He Hb Hx.
  assert (Hpb : 0 < 2 ^ (- eb)) by pow2_pos.
  assert (Hq : 0 <= Zpos mb / 2 ^ (- eb)) by (apply Z.div_pos; lia).
  destruct (DoubleFacts.within_inv _ _ Hx) as [->|(m & e & -> & Hxb & Hle)].
  - exists 0. split; [reflexivity|lia].
  - destruct (DoubleFacts.vle_of_SFleb _ _ _ _ Hxb Hb Hle) as [Hee Hm].
    cbn [Double.trunc].
    assert (Hpe : 0 < 2 ^ (- e)) by pow2_pos.
    assert (Hpd : 0 < 2 ^ (eb - e)) by pow2_pos.
    destruct (Z.leb_spec 0 e) as [H0|H0].
    + assert (e = 0) by lia. assert (eb = 0) by lia. subst e eb.
      eexists. split; [reflexivity|].
      change (2 ^ (0 - 0)) with 1 in Hm. change (2 ^ 0) with 1.
      change (2 ^ (- 0)) with 1. rewrite Z.div_1_r. lia.
    + eexists. split; [reflexivity|]. split; [apply Z.div_pos; lia|].
      replace (- e) with ((- eb) + (eb - e)) by lia.
      rewrite Z.pow_add_r by lia.
      rewrite <- (Z.div_mul_cancel_r (Zpos mb) (2 ^ (- eb)) (2 ^ (eb - e))) by lia.
      apply Z.div_le_mono; [lia|exact Hm].
Qed.

Lemma randomVariation_bounds r3 :
  is_draw r3 = true -> 0 <= randomVariation_of r3 <= 11.
Proof.
  intros Hr. unfold randomVariation_of, is_draw in *.
  change (isub MAX_FLASH_DURATION_MS MIN_FLASH_DURATION_MS) with 38.
  change (Double.mul (cast_double 38) lit_0_3)
    with (S754_finite false 6417629469002957 (-49)).
  pose proof (DoubleFacts.mul_within 6417629469002957 (-49) r3
                4503599627370496 (-52) 6417629469002957 (-49)
                eq_refl eq_refl eq_refl Hr ltac:(vm_compute; discriminate)) as Hw.
  destruct (trunc_within 6417629469002957 (-49) _ ltac:(lia) eq_refl Hw) as (v & Hv & Hb).
  change (Z.pos 6417629469002957 / 2 ^ (- -49)) with 11 in Hb.
  unfold Double.mul. rewrite (cast_int_in_range _ v Hv); unfold INT_MIN, INT_MAX; lia.
Qed.

Lemma min_one_within q :
  Double.within lit_1_0 q = true ->
  Double.within lit_1_0 (Double.min lit_1_0 q) = true.
Proof.
  intros H. unfold Double.min. destruct (Double.ltb q lit_1_0); [exact H|reflexivity].
Qed.

(** For a load between 0 and 100 and a draw of [0, 1] both conversions to
    [int] of lines 230 and 232 are defined, and no addition overflows: the
    duration is the base, between 12 and 50, plus the adjustment, capped at
    50. *)
Lemma flash_duration_defined load r3 :
  Double.within lit_100_0 load = true -> is_draw r3 = true ->
  MIN_FLASH_DURATION_MS <= base_duration load <= MAX_FLASH_DURATION_MS /\
  flash_duration load r3 =
    Z.min MAX_FLASH_DURATION_MS (base_duration load + randomVariation_of r3
                                 - randomVariation_of r3 / 2).
Proof.
  intros Hl Hr.
  pose proof (randomVariation_bounds r3 Hr) as Hv.
  assert (Hb : 12 <= base_duration load <= 50).
  { unfold base_duration.
    change (isub MAX_FLASH_DURATION_MS MIN_FLASH_DURATION_MS) with 38.
    change (cast_double 38) with (S754_finite false 5348024557502464 (-47)).
    pose proof (DoubleFacts.div_within load 7036874417766400 (-46) eq_refl Hl) as Hq.
    pose proof (min_one_within _ Hq) as Hf.
    pose proof (DoubleFacts.mul_within 5348024557502464 (-47) _
                  4503599627370496 (-52) 5348024557502464 (-47)
                  eq_refl eq_refl eq_refl Hf ltac:(vm_compute; discriminate)) as Hw.
    destruct (trunc_within 5348024557502464 (-47) _ ltac:(lia) eq_refl Hw)
      as (v & Hv' & Hvb).
    change (Z.pos 5348024557502464 / 2 ^ (- -47)) with 38 in Hvb.
    unfold Double.mul, Double.div, lit_100_0 in *.
    rewrite (cast_int_in_range _ v Hv') by (unfold INT_MIN, INT_MAX; lia).
    unfold iadd, i32, MIN_FLASH_DURATION_MS. rewrite Z.mod_small; lia. }
  split; [exact Hb|].
  unfold flash_duration, jitter, clamp_duration.
  set (rv := randomVariation_of r3) in *. set (b := base_duration load) in *.
  assert (Hq : Z.quot rv 2 = rv / 2) by (apply Z.quot_div_nonneg; lia).
  assert (Hh : 0 <= rv / 2 < 6)
    by (split; [apply Z.div_pos; lia|apply Z.div_lt_upper_bound; lia]).
  unfold isub, idiv, iadd, i32. rewrite Hq.
  unfold MIN_FLASH_DURATION_MS, MAX_FLASH_DURATION_MS.
  rewrite (Z.mod_small (rv / 2 + 2 ^ 31)) by lia.
  replace (rv / 2 + 2 ^ 31 - 2 ^ 31) with (rv / 2) by lia.
  rewrite (Z.mod_small (rv - rv / 2 + 2 ^ 31)) by lia.
  replace (rv - rv / 2 + 2 ^ 31 - 2 ^ 31) with (rv - rv / 2) by lia.
  rewrite (Z.mod_small (b + (rv - rv / 2) + 2 ^ 31)) by lia.
  pose proof (Z.mul_div_le rv 2 ltac:(lia)).
  replace (b + (rv - rv / 2) + 2 ^ 31 - 2 ^ 31) with (b + rv - rv / 2) by lia.
  lia.
Qed.

(** * The LED driver and shutdown *)

(** Each of the three driver functions establishes its configuration,
    whatever the pins were before. *)
Lemma led_configurations g :
  is_red (setRed g) /\ is_green (setGreen g) /\ is_off (setOff g).
Proof. repeat split. Qed.

Lemma main_loop_outcome gen evs :
  forall st,
    match main_loop gen evs st with
    | Exited status g => status = 0 /\ is_off g /\ terminated g = true
    | Looping _ => existsb is_signal evs = false
    end.
Proof.
  induction evs as [|ev evs IH]; intros st; cbn [main_loop].
  - destruct (running st); cbn [negb]; [reflexivity|].
    unfold main_epilogue. repeat split.
  - destruct (running st); cbn [negb].
    + destruct ev as [i|signum].
      * cbn [existsb is_signal orb]. apply IH.
      * unfold signalHandler. repeat split.
    + unfold main_epilogue. repeat split.
Qed.

(** The scenario of the specification: after the calibration read, a
    sample with 50 ticks of [user] time and no idle time gives a load of
    100, smoothed to 50. *)
Example scenario_first_sample :
  fst (sample_all (CPUMonitor_new None stats0)
         [(Some stats_a, stats0); (Some stats_b, stats0)])
  = [lit_0_0; Double.of_Z 50].
Proof. vm_compute. reflexivity. Qed.

(** C1, as the claim states it, fails: the counters of [stats_wrap] are not
    below those of [stats0], but their sum exceeds [2^64], the total wraps
    to 1 while the idle difference is [2^63], and the load leaves
    [[0, 100]]. *)
Lemma load_out_of_range_on_wrapped_total :
  let reads := [(Some stats0, stats0); (Some stats_wrap, stats0)] in
  monotone_reads (map fst reads) = true /\
  forallb in_range (fst (sample_all (CPUMonitor_new None stats0) reads)) = false /\
  in_range (cpuLoad (snd (sample_all (CPUMonitor_new None stats0) reads))) = false.
Proof. vm_compute. repeat split. Qed.

(** C1, amended: for every sequence of reads whose snapshots have
    non-decreasing counters and seven-counter sums below [2^64], every load
    [getCPULoad] returns, and the smoothed load it keeps, is between 0 and
    100. *)
Theorem smoothed_load_in_range first junk reads :
  monotone_reads (map fst reads) = true ->
  no_overflow (map fst reads) = true ->
  forallb in_range (fst (sample_all (CPUMonitor_new first junk) reads)) = true /\
  in_range (cpuLoad (snd (sample_all (CPUMonitor_new first junk) reads))) = true.
Proof.
  intros Hm Hn.
  apply (sample_all_within reads None (CPUMonitor_new first junk)); try assumption.
  - reflexivity.
  - cbn. discriminate.
Qed.

(** The run of the specification's scenario, with a failed read and a
    repeated snapshot in between, satisfies the hypotheses. *)
Lemma smoothed_load_in_range_witness :
  let reads := [(Some stats_a, stats0); (None, stats0); (Some stats_b, stats0);
                (Some stats_b, stats0)] in
  monotone_reads (map fst reads) = true /\
  no_overflow (map fst reads) = true /\
  forallb in_range (fst (sample_all (CPUMonitor_new None stats0) reads)) = true /\
  in_range (cpuLoad (snd (sample_all (CPUMonitor_new None stats0) reads))) = true.
Proof.
  split; [reflexivity|]. split; [reflexivity|].
  apply (smoothed_load_in_range None stats0
           [(Some stats_a, stats0); (None, stats0); (Some stats_b, stats0);
            (Some stats_b, stats0)]); reflexivity.
Defined.

(** C2, as the claim states it, fails: an Active period whose elapsed time
    equals the target duration (12 ms of 12 ms) does not end. *)
Lemma active_continues_at_equal_elapsed :
  isGreen state_active = true /\
  elapsed_ms 12000000 (flashTimer state_active) >= currentFlashDuration state_active /\
  isGreen (flash_step gen_half lit_100_0 12000000 state_active) = true.
Proof. vm_compute. repeat split; discriminate. Qed.

(** C2, amended: in the Active state the step switches to Idle exactly when
    the elapsed time is strictly greater than the target duration, whatever
    the load and the draws: then it turns the LED red and records the end of
    the flash, otherwise it changes nothing. *)
Theorem active_ends_after_duration gen load now st :
  isGreen st = true ->
  let st' := flash_step gen load now st in
  (currentFlashDuration st < elapsed_ms now (flashTimer st) ->
   isGreen st' = false /\ gpio st' = setRed (gpio st) /\ lastFlashEndTime st' = now) /\
  (elapsed_ms now (flashTimer st) <= currentFlashDuration st -> st' = st).
Proof.
  intros Hg st'. unfold st', flash_step. rewrite Hg. cbn [andb negb]. split.
  - intros H. apply Z.ltb_lt in H. rewrite H. auto.
  - intros H. apply Z.ltb_ge in H. rewrite H. reflexivity.
Qed.

(** After 13 ms of a 12 ms flash the step switches to Idle. *)
Lemma active_ends_after_duration_witness :
  isGreen state_active = true /\
  isGreen (flash_step gen_half lit_100_0 13000000 state_active) = false.
Proof.
  split; [reflexivity|].
  apply (active_ends_after_duration gen_half lit_100_0 13000000 state_active eq_refl).
  vm_compute. reflexivity.
Defined.

(** C3: the signal handler, entered in any state, and the end of [main],
    reached when the flag is cleared, leave channel A at level 0 and channel
    B at duty cycle 0, terminate the library and exit with status 0; [main]
    exits with status 1 when the initialisation fails; and once a signal has
    arrived the program is no longer looping. *)
Theorem shutdown_forces_off :
  (forall signum st, exited_off 0 (signalHandler signum st)) /\
  (forall gen evs st, exited_off 0 (main_loop gen evs (clear_running st))) /\
  (forall s gen evs,
     match main s gen evs with
     | Exited status g =>
         if gpioInitialise s <? 0 then status = 1 /\ g = pins s
         else status = 0 /\ is_off g /\ terminated g = true
     | Looping _ => (gpioInitialise s <? 0) = false /\ existsb is_signal evs = false
     end).
Proof.
  split; [|split].
  - intros signum st. repeat split.
  - intros gen evs st. destruct evs; repeat split.
  - intros s gen evs. unfold main. destruct (gpioInitialise s <? 0).
    + split; reflexivity.
    + pose proof (main_loop_outcome gen evs (initial_state s)) as H.
      destruct (main_loop gen evs (initial_state s)); [exact H|split; [reflexivity|exact H]].
Qed.

(** A termination signal in the middle of a flash: the LED was green, and is
    off when the process exits. *)
Example shutdown_mid_active :
  is_green (gpio state_active) /\ exited_off 0 (signalHandler 15 state_active).
Proof. repeat split. Qed.

(** C4: the target duration starts inside
    [[MIN_FLASH_DURATION_MS, MAX_FLASH_DURATION_MS]], every duration computed
    when a flash begins is inside it, and so is the duration in every state
    the loop reaches. *)
Theorem flash_duration_in_bounds :
  (forall s,
     MIN_FLASH_DURATION_MS <= currentFlashDuration (initial_state s)
       <= MAX_FLASH_DURATION_MS) /\
  (forall load r3,
     MIN_FLASH_DURATION_MS <= flash_duration load r3 <= MAX_FLASH_DURATION_MS) /\
  (forall s gen ins,
     MIN_FLASH_DURATION_MS
       <= currentFlashDuration (iterate gen ins (initial_state s))
       <= MAX_FLASH_DURATION_MS).
Proof.
  assert (H0 : forall s,
     MIN_FLASH_DURATION_MS <= currentFlashDuration (initial_state s)
       <= MAX_FLASH_DURATION_MS).
  { intros s. cbn. unfold MIN_FLASH_DURATION_MS, MAX_FLASH_DURATION_MS. lia. }
  split; [exact H0|]. split.
  - intros load r3. apply clamp_duration_bounds.
  - intros s gen ins. apply iterate_duration, H0.
Qed.

(** C5: a step taken in the Idle state ends in the Active state only if the
    load is above the threshold and more than the minimum pause has passed
    since the last flash; otherwise, for every sequence of draws, it changes
    nothing, so the state stays Idle and the output stays as it was. *)
Theorem idle_needs_load_and_pause gen load now st :
  isGreen st = false ->
  (isGreen (flash_step gen load now st) = true ->
   Double.ltb ACTIVITY_THRESHOLD load = true /\
   MIN_PAUSE_BETWEEN_FLASHES_MS < elapsed_ms now (lastFlashEndTime st)) /\
  (Double.ltb ACTIVITY_THRESHOLD load = false \/
   elapsed_ms now (lastFlashEndTime st) <= MIN_PAUSE_BETWEEN_FLASHES_MS ->
   flash_step gen load now st = st).
Proof.
  intros Hg. unfold flash_step. rewrite Hg. cbn [andb negb]. split.
  - destruct (Double.ltb ACTIVITY_THRESHOLD load); cbn [andb].
    + destruct (Z.ltb_spec MIN_PAUSE_BETWEEN_FLASHES_MS (elapsed_ms now (lastFlashEndTime st))).
      * auto.
      * rewrite Hg. discriminate.
    + rewrite Hg. discriminate.
  - intros [H|H].
    + rewrite H. reflexivity.
    + apply Z.ltb_ge in H. rewrite H, andb_false_r. reflexivity.
Qed.

(** At full load, 30 ms after the last flash, the step changes nothing. *)
Lemma idle_needs_load_and_pause_witness :
  isGreen state_idle = false /\
  flash_step gen_half lit_100_0 30000000 state_idle = state_idle.
Proof.
  split; [reflexivity|].
  apply (idle_needs_load_and_pause gen_half lit_100_0 30000000 state_idle eq_refl).
  right. vm_compute. discriminate.
Defined.

(** C6 (the code departs from the claim): the amount line 233 adds to the
    duration is never negative. For every draw it lies between 0 and 6 ms,
    on one side of the unjittered base, and 6 ms is more than 15% of the
    range of 38 ms. *)
Theorem jitter_is_one_sided r3 :
  is_draw r3 = true -> 0 <= jitter r3 <= 6.
Proof.
  intros Hr. pose proof (randomVariation_bounds r3 Hr) as Hv.
  unfold jitter. set (rv := randomVariation_of r3) in *.
  assert (Hq : Z.quot rv 2 = rv / 2) by (apply Z.quot_div_nonneg; lia).
  unfold isub, idiv, i32. rewrite Hq.
  assert (0 <= rv / 2 < 6) by (split; [apply Z.div_pos; lia|apply Z.div_lt_upper_bound; lia]).
  assert (E1 : (rv / 2 + 2 ^ 31) mod 2 ^ 32 - 2 ^ 31 = rv / 2).
  { rewrite Z.mod_small; lia. }
  rewrite E1.
  pose proof (Z.div_mod rv 2 ltac:(lia)). pose proof (Z.mod_pos_bound rv 2 ltac:(lia)).
  rewrite Z.mod_small; lia.
Qed.

(** The largest draw. *)
Lemma jitter_is_one_sided_witness :
  is_draw draw_max = true /\ 0 <= jitter draw_max <= 6.
Proof.
  split; [reflexivity|]. apply (jitter_is_one_sided draw_max). reflexivity.
Defined.

(** At the largest draw the adjustment is +6 ms, above 15% of the range. *)
Example jitter_exceeds_15_percent :
  jitter draw_max = 6 /\
  15 * (MAX_FLASH_DURATION_MS - MIN_FLASH_DURATION_MS) < 100 * jitter draw_max.
Proof. vm_compute. split; reflexivity. Qed.

(** C7: the first successful read stores the snapshot, sets the flag and
    returns 0.0 without touching the smoothed load; the program starts Idle
    with the LED red; and the first iteration of the loop leaves it so,
    whatever /proc/stat holds and whatever the draws are. *)
Theorem first_read_calibrates :
  (forall s junk last load,
     getCPULoad (Some s) junk
       {| lastStats := last; cpuLoad := load; initialized := false |} =
     (lit_0_0, {| lastStats := s; cpuLoad := load; initialized := true |})) /\
  (forall s, isGreen (initial_state s) = false /\ is_red (gpio (initial_state s))) /\
  (forall s gen i,
     isGreen (loop_body gen i (initial_state s)) = false /\
     gpio (loop_body gen i (initial_state s)) = gpio (initial_state s)).
Proof.
  split; [|split].
  - intros s junk last load. reflexivity.
  - intros s. repeat split.
  - intros s gen i. unfold loop_body, initial_state. cbn [monitor].
    destruct (procstat i) as [c|]; cbn; split; reflexivity.
Qed.

(** C8: when the flag is set and the total of the new snapshot equals the
    total of the stored one, [getCPULoad] returns the smoothed load as it
    was and stores the new snapshot. *)
Theorem equal_totals_keep_load s junk m :
  initialized m = true ->
  total s = total (lastStats m) ->
  getCPULoad (Some s) junk m =
  (cpuLoad m, {| lastStats := s; cpuLoad := cpuLoad m; initialized := true |}).
Proof.
  intros Hi Ht. apply getCPULoad_no_progress; [exact Hi|].
  rewrite Ht. unfold usub, u64. rewrite Z.sub_diag. reflexivity.
Qed.

(** Ten ticks moved from [user] to [nice]: the total has not changed. *)
Lemma equal_totals_keep_load_witness :
  let m := {| lastStats := stats_a; cpuLoad := lit_0_5; initialized := true |} in
  let s := mkCPUStats 90 10 0 100 0 0 0 in
  total s = total (lastStats m) /\
  getCPULoad (Some s) stats0 m =
  (lit_0_5, {| lastStats := s; cpuLoad := lit_0_5; initialized := true |}).
Proof.
  split; [reflexivity|].
  apply (equal_totals_keep_load (mkCPUStats 90 10 0 100 0 0 0) stats0
           {| lastStats := stats_a; cpuLoad := lit_0_5; initialized := true |});
    reflexivity.
Defined.

(** C9: when the read fails [getCPULoad] returns the smoothed load it holds
    and leaves the monitor as it is; the iteration of the loop goes on with
    that load. *)
Theorem read_failure_is_absorbed :
  (forall junk m, getCPULoad None junk m = (cpuLoad m, m)) /\
  (forall gen junk t st,
     loop_body gen {| procstat := None; stack := junk; now := t |} st =
     flash_step gen (cpuLoad (monitor st)) t st) /\
  (forall gen junk t st,
     monitor (loop_body gen {| procstat := None; stack := junk; now := t |} st) =
     monitor st /\
     running (loop_body gen {| procstat := None; stack := junk; now := t |} st) =
     running st).
Proof.
  assert (H : forall gen junk t st,
     loop_body gen {| procstat := None; stack := junk; now := t |} st =
     flash_step gen (cpuLoad (monitor st)) t st).
  { intros gen junk t st. unfold loop_body. cbn [procstat stack now].
    rewrite getCPULoad_failed. destruct st; reflexivity. }
  split; [|split].
  - intros junk m. reflexivity.
  - exact H.
  - intros gen junk t st. rewrite H. apply flash_step_monitor.
Qed.

(** C10: after any number of failed reads the monitor is as the constructor
    left it, with the flag unset; the call that follows, whether its read
    fails or succeeds, returns 0.0; and if it succeeds it stores its
    snapshot and sets the flag. *)
Theorem calls_before_first_success_return_zero first junk0 junks :
  let m0 := CPUMonitor_new first junk0 in
  let failures := map (pair None) junks in
  snd (sample_all m0 failures) = m0 /\
  initialized m0 = false /\
  (forall r rest,
     nth_error (fst (sample_all m0 (failures ++ r :: rest))) (length junks)
     = Some lit_0_0) /\
  (forall s j,
     snd (sample_all m0 (failures ++ [(Some s, j)])) =
     {| lastStats := s; cpuLoad := lit_0_0; initialized := true |}).
Proof.
  intros m0 failures. unfold failures.
  split; [rewrite sample_all_failures; reflexivity|].
  split; [reflexivity|]. split.
  - intros [p j] rest. rewrite sample_all_app, sample_all_failures. cbn [fst snd].
    rewrite nth_error_app2 by (rewrite length_map; lia).
    rewrite length_map, Nat.sub_diag.
    cbn [sample_all]. destruct p as [s|].
    + rewrite getCPULoad_calibration by reflexivity.
      destruct (sample_all _ rest). reflexivity.
    + rewrite getCPULoad_failed. destruct (sample_all _ rest). reflexivity.
  - intros s j. rewrite sample_all_app, sample_all_failures. cbn [fst snd sample_all].
    rewrite getCPULoad_calibration by reflexivity. reflexivity.
Qed.

(** * Further properties of the code

    What the rest of the file shows about the parts of the program the
    properties above do not reach: the pins in every state of the loop, what
    the monitor remembers, the whole run of [main], the timing of flashes,
    the flash probability and the console bar. *)

(** ** More on the operations *)

Module DoubleMore.
Import Double DoubleFacts.

Lemma vle_trans m1 e1 m2 e2 m3 e3 :
  vle m1 e1 m2 e2 -> vle m2 e2 m3 e3 -> vle m1 e1 m3 e3.
Proof.
  intros H12 H23. set (c := Z.min e1 (Z.min e2 e3)).
  apply (vle_shift _ _ _ _ c) in H12; [|lia|lia].
  apply (vle_shift _ _ _ _ c) in H23; [|lia|lia].
  apply (vle_shift _ _ _ _ c); lia.
Qed.

Lemma vle_refl m e : vle m e m e.
Proof. unfold vle. lia. Qed.

Lemma within_vle mb eb m e :
  bounded prec emax mb eb = true ->
  within (S754_finite false mb eb) (S754_finite false m e) = true ->
  bounded prec emax m e = true /\ vle (Zpos m) e (Zpos mb) eb.
Proof.
  intros Hb H. cbn [within] in H. apply andb_true_iff in H. destruct H as [H1 H2].
  split; [exact H1|].
  destruct (vle_of_SFleb _ _ _ _ H1 Hb H2) as [He Hm].
  apply (vle_shift _ _ _ _ e); [lia|lia|]. same_exponent. exact Hm.
Qed.

(** A number divided by itself is 1. *)
Lemma div_self p e :
  SFdiv prec emax (S754_finite false p e) (S754_finite false p e) = one.
Proof.
  cbn [SFdiv xorb]. unfold SFdiv_core_binary.
  replace (Zdigits2 (Z.pos p) + e - (Zdigits2 (Z.pos p) + e)) with 0 by lia.
  rewrite Z.sub_diag.
  change (Z.min (fexp prec emax 0) 0) with (-53).
  change (0 - -53) with 53.
  rewrite Z.shiftl_mul_pow2 by lia.
  pose proof (Z.div_mod (Z.pos p * 2 ^ 53) (Z.pos p) ltac:(lia)) as Hdm.
  pose proof (Z.mod_pos_bound (Z.pos p * 2 ^ 53) (Z.pos p) ltac:(lia)) as Hmb.
  unfold Z.div, Z.modulo in Hdm, Hmb.
  destruct (Z.div_eucl (Z.pos p * 2 ^ 53) (Z.pos p)) as [q r]. cbn [fst snd] in *.
  assert (Hq : q = 2 ^ 53) by nia. assert (Hr : r = 0) by nia. subst q r.
  replace (new_location (Z.pos p) 0) with loc_Exact
    by (unfold new_location, new_location_even, new_location_odd;
        destruct (Z.even (Z.pos p)); reflexivity).
  reflexivity.
Qed.

Lemma digits_mul_le a b : 0 < a -> 0 < b -> Zdigits2 (a * b) <= Zdigits2 a + Zdigits2 b.
Proof.
  intros Ha Hb.
  pose proof (Zdigits2_bounds a Ha) as [_ A2]. pose proof (Zdigits2_bounds b Hb) as [_ B2].
  pose proof (Zdigits2_pos a Ha). pose proof (Zdigits2_pos b Hb).
  pose proof (Zdigits2_bounds (a * b) ltac:(nia)) as [P1 _].
  destruct (Z.le_gt_cases (Zdigits2 (a * b)) (Zdigits2 a + Zdigits2 b)) as [|Hgt];
    [assumption|exfalso].
  assert (2 ^ (Zdigits2 a + Zdigits2 b) <= 2 ^ (Zdigits2 (a * b) - 1))
    by (apply Z.pow_le_mono_r; lia).
  rewrite Z.pow_add_r in H1 by lia. nia.
Qed.

(** Division: if [x <= B * y] then the rounded quotient is at most [B]. *)
Lemma div_bound mx ex my ey mb eb :
  bounded prec emax my ey = true ->
  bounded prec emax mb eb = true ->
  vle (Zpos mx) ex (Zpos mb * Zpos my) (eb + ey) ->
  within (S754_finite false mb eb)
         (SFdiv prec emax (S754_finite false mx ex) (S754_finite false my ey)) = true.
Proof.
  intros Hy Hb Hv.
  destruct (vle_digits (Zpos mx) ex (Zpos mb * Zpos my) (eb + ey) ltac:(lia) Hv) as [_ Hd].
  pose proof (digits_mul_le (Zpos mb) (Zpos my) ltac:(lia) ltac:(lia)) as Hdm0.
  pose proof (proj1 (bounded_spec mb eb) Hb) as [Hb1 Hb2].
  cbn [SFdiv xorb]. unfold SFdiv_core_binary.
  set (d1 := Zdigits2 (Zpos mx)) in *. set (d2 := Zdigits2 (Zpos my)) in *.
  fold (fexp64 (d1 + ex - (d2 + ey))).
  set (e' := Z.min (fexp64 (d1 + ex - (d2 + ey))) (ex - ey)).
  set (s := ex - ey - e').
  assert (Hs : 0 <= s) by (unfold s, e'; lia).
  assert (He' : e' <= eb).
  { unfold e'. rewrite Hb1. rewrite !fexp64_eq. lia. }
  set (m' := match s with Z.pos _ => Z.shiftl (Zpos mx) s | 0 => Zpos mx | Z.neg _ => 0 end).
  assert (Hm' : m' = Zpos mx * 2 ^ s).
  { unfold m'. destruct s as [|p|p] eqn:E.
    - rewrite Z.pow_0_r. lia.
    - apply Z.shiftl_mul_pow2. lia.
    - lia. }
  clearbody m'.
  pose proof (Z.div_mod m' (Zpos my) ltac:(lia)) as Hdm.
  pose proof (Z.mod_pos_bound m' (Zpos my) ltac:(lia)) as Hmb.
  unfold Z.div, Z.modulo in Hdm, Hmb.
  destruct (Z.div_eucl m' (Z.pos my)) as [q r]. cbn [fst snd] in Hdm, Hmb.
  assert (Hps : 0 < 2 ^ s) by pow2_pos.
  assert (Hq : 0 <= q) by nia.
  assert (Hpe : 0 < 2 ^ (eb - e')) by pow2_pos.
  assert (Hbound : m' <= Zpos mb * 2 ^ (eb - e') * Zpos my).
  { apply (vle_shift _ _ _ _ (ey + e')) in Hv; [|unfold s in Hs; lia|lia].
    replace (ex - (ey + e')) with s in Hv by (unfold s; lia).
    replace (eb + ey - (ey + e')) with (eb - e') in Hv by lia.
    rewrite Hm'. lia. }
  apply round_aux_within; [assumption| |assumption|].
  - destruct (Z.eq_dec q 0) as [->|Hq0].
    + simpl Zdigits2. assert (Hlt : m' < Zpos my) by lia.
      assert (Hdd : Zdigits2 m' <= d2).
      { apply Zdigits2_le; [rewrite Hm'; nia|lia]. }
      rewrite Hm', Zdigits2_mul_pow in Hdd by lia. fold d1 in Hdd.
      unfold s, e' in Hdd. rewrite !fexp64_eq in *. unfold e'. rewrite fexp64_eq. lia.
    + assert (Hqd : q = m' / Zpos my).
      { apply Z.div_unique with r; [lia|lia]. }
      pose proof (div_digits m' (Zpos my) ltac:(rewrite Hm'; nia) ltac:(lia) ltac:(lia)) as Hdq.
      rewrite <- Hqd in Hdq. rewrite Hm', Zdigits2_mul_pow in Hdq by lia.
      fold d1 d2 in Hdq. unfold s in Hdq.
      assert (Hge : d1 + ex - (d2 + ey) <= Zdigits2 q + e') by lia.
      assert (He'le : e' <= fexp64 (d1 + ex - (d2 + ey))) by (unfold e'; lia).
      rewrite !fexp64_eq in *. lia.
  - rewrite new_location_up.
    apply (vle_shift _ _ _ _ e'); [lia|lia|].
    same_exponent.
    destruct (Z.eqb_spec r 0); nia.
Qed.

Lemma div_within_gen x my ey mbx ebx mb eb :
  bounded prec emax my ey = true ->
  bounded prec emax mbx ebx = true ->
  bounded prec emax mb eb = true ->
  within (S754_finite false mbx ebx) x = true ->
  vle (Zpos mbx) ebx (Zpos mb * Zpos my) (eb + ey) ->
  within (S754_finite false mb eb) (SFdiv prec emax x (S754_finite false my ey)) = true.
Proof.
  intros Hy Hbx Hb Hx Hv.
  destruct (within_inv _ _ Hx) as [->|(mx & ex & -> & Hxb & Hle)]; [reflexivity|].
  destruct (within_vle _ _ _ _ Hbx Hx) as [_ Hvx].
  apply div_bound; try assumption.
  eapply vle_trans; eassumption.
Qed.

(** Multiplication of two bounded numbers. *)
Lemma mul_within2 x y mbx ebx mby eby mb eb :
  bounded prec emax mbx ebx = true ->
  bounded prec emax mby eby = true ->
  bounded prec emax mb eb = true ->
  within (S754_finite false mbx ebx) x = true ->
  within (S754_finite false mby eby) y = true ->
  vle (Zpos mbx * Zpos mby) (ebx + eby) (Zpos mb) eb ->
  within (S754_finite false mb eb) (SFmul prec emax x y) = true.
Proof.
  intros Hbx Hby Hb Hx Hy Hv.
  destruct (within_inv _ _ Hx) as [->|(mx & ex & -> & Hxb & Hlx)].
  - destruct (within_inv _ _ Hy) as [->|(my & ey & -> & _)]; reflexivity.
  - apply (mul_within mx ex y mby eby mb eb); try assumption.
    destruct (within_vle _ _ _ _ Hbx Hx) as [_ Hvx].
    eapply vle_trans; [|exact Hv].
    set (c := Z.min (ex + eby) (ebx + eby)).
    apply (vle_shift _ _ _ _ c); [lia|lia|].
    apply (vle_shift _ _ _ _ (c - eby)) in Hvx; [|lia|lia].
    replace (ex + eby - c) with (ex - (c - eby)) by lia.
    replace (ebx + eby - c) with (ebx - (c - eby)) by lia.
    nia.
Qed.

(** The integer inequality behind [add_bound], on a common exponent [c]. *)
Lemma sum_scaled mx ex my ey mbx ebx mby eby mb eb ez c0 c :
  c <= ez -> ez <= ex -> ez <= ey ->
  c <= c0 -> c0 <= ebx -> c0 <= eby -> c0 <= eb ->
  mx * 2 ^ (ex - c) <= mbx * 2 ^ (ebx - c) ->
  my * 2 ^ (ey - c) <= mby * 2 ^ (eby - c) ->
  mbx * 2 ^ (ebx - c0) + mby * 2 ^ (eby - c0) <= mb * 2 ^ (eb - c0) ->
  (mx * 2 ^ (ex - ez) + my * 2 ^ (ey - ez)) * 2 ^ (ez - c) <= mb * 2 ^ (eb - c).
Proof.
  intros H1 H2 H3 H4 H5 H6 H7 V1 V2 Hsum.
  assert (Q : 0 <= 2 ^ (c0 - c)) by (apply Z.pow_nonneg; lia).
  replace (ex - c) with ((ex - ez) + (ez - c)) in V1 by lia.
  replace (ey - c) with ((ey - ez) + (ez - c)) in V2 by lia.
  replace (ebx - c) with ((ebx - c0) + (c0 - c)) in V1 by lia.
  replace (eby - c) with ((eby - c0) + (c0 - c)) in V2 by lia.
  replace (eb - c) with ((eb - c0) + (c0 - c)) by lia.
  rewrite Z.pow_add_r in V1, V2 by lia.
  rewrite (Z.pow_add_r 2 (ebx - c0)) in V1 by lia.
  rewrite (Z.pow_add_r 2 (eby - c0)) in V2 by lia.
  rewrite (Z.pow_add_r 2 (eb - c0)) by lia.
  apply (Z.mul_le_mono_nonneg_r _ _ _ Q) in Hsum.
  revert V1 V2 Hsum.
  generalize (2 ^ (ex - ez)) (2 ^ (ey - ez)) (2 ^ (ez - c)) (2 ^ (c0 - c))
             (2 ^ (ebx - c0)) (2 ^ (eby - c0)) (2 ^ (eb - c0)).
  clear. intros A B D Q P R S V1 V2 Hsum.
  rewrite !Z.mul_assoc in *. rewrite Z.mul_add_distr_r in *. lia.
Qed.

(** Addition of two bounded numbers. *)
Lemma add_bound x y mbx ebx mby eby mb eb :
  bounded prec emax mbx ebx = true ->
  bounded prec emax mby eby = true ->
  bounded prec emax mb eb = true ->
  within (S754_finite false mbx ebx) x = true ->
  within (S754_finite false mby eby) y = true ->
  (let c := Z.min ebx (Z.min eby eb) in
   Zpos mbx * 2 ^ (ebx - c) + Zpos mby * 2 ^ (eby - c) <= Zpos mb * 2 ^ (eb - c)) ->
  within (S754_finite false mb eb) (SFadd prec emax x y) = true.
Proof.
  intros Hbx Hby Hb Hx Hy Hsum. cbv zeta in Hsum.
  pose proof (Z.le_min_l ebx (Z.min eby eb)) as L1.
  pose proof (Z.le_trans _ _ _ (Z.le_min_r ebx (Z.min eby eb)) (Z.le_min_l eby eb)) as L2.
  pose proof (Z.le_trans _ _ _ (Z.le_min_r ebx (Z.min eby eb)) (Z.le_min_r eby eb)) as L3.
  revert Hsum L1 L2 L3. generalize (Z.min ebx (Z.min eby eb)). intros c0 Hsum L1 L2 L3.
  assert (Vx : vle (Zpos mbx) ebx (Zpos mb) eb).
  { apply (vle_shift _ _ _ _ c0); [exact L1|exact L3|].
    assert (0 <= Zpos mby * 2 ^ (eby - c0)) by (apply Z.mul_nonneg_nonneg; [|apply Z.pow_nonneg]; lia).
    clear - Hsum H. lia. }
  assert (Vy : vle (Zpos mby) eby (Zpos mb) eb).
  { apply (vle_shift _ _ _ _ c0); [exact L2|exact L3|].
    assert (0 <= Zpos mbx * 2 ^ (ebx - c0)) by (apply Z.mul_nonneg_nonneg; [|apply Z.pow_nonneg]; lia).
    clear - Hsum H. lia. }
  destruct (within_inv _ _ Hx) as [->|(mx & ex & -> & Hxb & Hlx)];
    destruct (within_inv _ _ Hy) as [->|(my & ey & -> & Hyb & Hly)].
  - reflexivity.
  - cbn [SFadd]. destruct (within_vle _ _ _ _ Hby Hy) as [_ V].
    apply within_finite; try assumption. eapply vle_trans; eassumption.
  - cbn [SFadd]. destruct (within_vle _ _ _ _ Hbx Hx) as [_ V].
    apply within_finite; try assumption. eapply vle_trans; eassumption.
  - destruct (within_vle _ _ _ _ Hbx Hx) as [_ V1].
    destruct (within_vle _ _ _ _ Hby Hy) as [_ V2].
    cbn [SFadd cond_Zopp].
    pose proof (shl_align_spec mx ex (Z.min ex ey)) as [_ H1].
    pose proof (shl_align_spec my ey (Z.min ex ey)) as [_ H2].
    rewrite H1, H2. clear H1 H2.
    rewrite (Z.min_r ex (Z.min ex ey)) by apply Z.le_min_l.
    rewrite (Z.min_r ey (Z.min ex ey)) by apply Z.le_min_r.
    pose proof (Z.le_min_l ex ey) as M1. pose proof (Z.le_min_r ex ey) as M2.
    revert M1 M2. generalize (Z.min ex ey). intros ez M1 M2.
    assert (0 < 2 ^ (ex - ez)) by (apply Z.pow_pos_nonneg; clear - M1; lia).
    assert (0 < 2 ^ (ey - ez)) by (apply Z.pow_pos_nonneg; clear - M2; lia).
    apply binary_normalize_within; [|assumption|].
    { assert (0 < Zpos mx * 2 ^ (ex - ez)) by (apply Z.mul_pos_pos; [reflexivity|assumption]).
      assert (0 < Zpos my * 2 ^ (ey - ez)) by (apply Z.mul_pos_pos; [reflexivity|assumption]).
      apply Z.lt_le_incl, Z.add_pos_pos; assumption. }
    pose proof (Z.le_min_l ez c0) as N1. pose proof (Z.le_min_r ez c0) as N2.
    revert N1 N2. generalize (Z.min ez c0). intros c N1 N2.
    assert (c <= ex) by (clear - N1 M1; lia).
    assert (c <= ey) by (clear - N1 M2; lia).
    assert (c <= ebx) by (clear - N2 L1; lia).
    assert (c <= eby) by (clear - N2 L2; lia).
    assert (c <= eb) by (clear - N2 L3; lia).
    apply (vle_shift _ _ _ _ c); [exact N1|assumption|].
    apply (vle_shift _ _ _ _ c) in V1; [|assumption|assumption].
    apply (vle_shift _ _ _ _ c) in V2; [|assumption|assumption].
    apply (sum_scaled _ ex _ ey (Zpos mbx) ebx (Zpos mby) eby _ eb ez c0 c); assumption.
Qed.

(** A number at or above a bound is not below a number within the bound. *)
Lemma ltb_false_above mb eb x mr er :
  bounded prec emax mb eb = true ->
  within (S754_finite false mb eb) x = true ->
  bounded prec emax mr er = true ->
  SFleb (S754_finite false mb eb) (S754_finite false mr er) = true ->
  SFltb (S754_finite false mr er) x = false.
Proof.
  intros Hb Hx Hr Hle.
  destruct (within_inv _ _ Hx) as [->|(mx & ex & -> & Hxb & Hlx)]; [reflexivity|].
  destruct (vle_of_SFleb _ _ _ _ Hxb Hb Hlx) as [E1 M1].
  destruct (vle_of_SFleb _ _ _ _ Hb Hr Hle) as [E2 M2].
  unfold SFltb, SFcompare.
  destruct (Z.compare_spec er ex) as [E|E|E]; try reflexivity; [|lia].
  assert (eb = ex) by lia. subst er eb.
  rewrite Z.sub_diag, Z.pow_0_r, Z.mul_1_r in M1, M2.
  change (Pos.compare_cont Eq mr mx) with (Pos.compare mr mx).
  destruct (Pos.compare_spec mr mx); try reflexivity. lia.
Qed.

End DoubleMore.

Lemma loop_body_unfold gen i st :
  loop_body gen i st =
  flash_step gen (fst (getCPULoad (procstat i) (stack i) (monitor st))) (now i)
    {| running := running st;
       monitor := snd (getCPULoad (procstat i) (stack i) (monitor st));
       drawn := drawn st; isGreen := isGreen st; flashTimer := flashTimer st;
       lastFlashEndTime := lastFlashEndTime st;
       currentFlashDuration := currentFlashDuration st; gpio := gpio st |}.
Proof.
  unfold loop_body. destruct (getCPULoad (procstat i) (stack i) (monitor st)).
  reflexivity.
Qed.

(** ** The pins in every state of the loop *)

Lemma flash_step_pins before gen load t st :
  pins_follow before st -> terminated (gpio st) = terminated before ->
  pins_follow before (flash_step gen load t st) /\
  terminated (gpio (flash_step gen load t st)) = terminated before.
Proof.
  intros H Ht. unfold flash_step.
  destruct (isGreen st && _) eqn:E1.
  - split; [|exact Ht]. intros p. destruct (H p) as [Hl Hd].
    cbn [gpio isGreen setRed gpioWrite gpioPWM level duty]. unfold upd.
    rewrite Hl, Hd. unfold PIN_A, PIN_B.
    destruct (Z.eqb_spec p 16), (Z.eqb_spec p 26); try lia;
      destruct (isGreen st); split; reflexivity.
  - match goal with |- context [if ?c then _ else st] => destruct c end;
      [|split; [exact H|exact Ht]].
    match goal with |- context [if ?c then _ else _] => destruct c end;
      [|split; [exact H|exact Ht]].
    split; [|exact Ht]. intros p. destruct (H p) as [Hl Hd].
    cbn [gpio isGreen setGreen gpioWrite gpioPWM level duty]. unfold upd.
    rewrite Hl, Hd. unfold PIN_A, PIN_B.
    destruct (Z.eqb_spec p 16), (Z.eqb_spec p 26); try lia;
      destruct (isGreen st); split; reflexivity.
Qed.

Lemma iterate_pins before gen ins :
  forall st,
    pins_follow before st -> terminated (gpio st) = terminated before ->
    pins_follow before (iterate gen ins st) /\
    terminated (gpio (iterate gen ins st)) = terminated before.
Proof.
  unfold iterate. induction ins as [|i ins IH]; intros st H Ht; [split; assumption|].
  cbn [fold_left]. rewrite loop_body_unfold.
  match goal with |- context [flash_step gen ?l ?t ?s0] =>
    destruct (flash_step_pins before gen l t s0 H Ht) as [H' Ht'] end.
  apply IH; assumption.
Qed.

(** In every state the loop reaches, channel A is at level 1 and channel B
    at duty cycle 0 when the state is Idle, channel A at level 0 and channel
    B at duty cycle [GREEN_BRIGHTNESS] when it is Active; the level of
    channel B is 0; no other pin has been written to; and the library has
    not been terminated. *)
Theorem pins_follow_state s gen ins p :
  let st := iterate gen ins (initial_state s) in
  level (gpio st) p =
    (if p =? PIN_A then if isGreen st then 0 else 1
     else if p =? PIN_B then 0 else level (pins s) p) /\
  duty (gpio st) p =
    (if p =? PIN_B then if isGreen st then GREEN_BRIGHTNESS else 0
     else duty (pins s) p) /\
  terminated (gpio st) = terminated (pins s).
Proof.
  intros st.
  assert (H0 : pins_follow (pins s) (initial_state s)).
  { intros q. cbn [initial_state gpio isGreen setRed gpioWrite gpioPWM level duty].
    unfold upd, PIN_A, PIN_B.
    destruct (Z.eqb_spec q 16), (Z.eqb_spec q 26); try lia; split; reflexivity. }
  destruct (iterate_pins (pins s) gen ins (initial_state s) H0 eq_refl) as [H Ht].
  destruct (H p) as [Hl Hd]. auto.
Qed.

(** ** The sampler inside the loop *)

Lemma loop_body_monitor gen i st :
  monitor (loop_body gen i st) = snd (getCPULoad (procstat i) (stack i) (monitor st)) /\
  running (loop_body gen i st) = running st.
Proof.
  rewrite loop_body_unfold.
  match goal with |- context [flash_step gen ?l ?t ?s0] =>
    destruct (flash_step_monitor gen l t s0) as [Hm Hr] end.
  rewrite Hm, Hr. split; reflexivity.
Qed.

Lemma sample_all_snd_cons m p j rest :
  snd (sample_all m ((p, j) :: rest)) = snd (sample_all (snd (getCPULoad p j m)) rest).
Proof.
  cbn [sample_all]. destruct (getCPULoad p j m) as [l m']. cbn [snd].
  destruct (sample_all m' rest). reflexivity.
Qed.

Lemma iterate_monitor gen ins :
  forall st,
    monitor (iterate gen ins st) = snd (sample_all (monitor st) (reads_of ins)).
Proof.
  unfold iterate, reads_of.
  induction ins as [|i ins IH]; intros st; [reflexivity|].
  cbn [fold_left map]. destruct (loop_body_monitor gen i st) as [Hm _].
  rewrite IH, Hm, sample_all_snd_cons. reflexivity.
Qed.

Lemma iterate_running gen ins :
  forall st, running (iterate gen ins st) = running st.
Proof.
  unfold iterate.
  induction ins as [|i ins IH]; intros st; [reflexivity|].
  cbn [fold_left]. destruct (loop_body_monitor gen i st) as [_ Hr].
  rewrite IH, Hr. reflexivity.
Qed.

(** The monitor after a run of the loop is the monitor after the same reads
    alone, whatever the clock, the draws and the state of the flash were:
    two runs that read the same snapshots end with the same monitor. And
    the loop never clears [running]. *)
Theorem sampler_independent_of_policy gen gen' ins ins' st st' :
  monitor st = monitor st' ->
  reads_of ins = reads_of ins' ->
  monitor (iterate gen ins st) = monitor (iterate gen' ins' st') /\
  monitor (iterate gen ins st) = snd (sample_all (monitor st) (reads_of ins)) /\
  running (iterate gen ins st) = running st.
Proof.
  intros Hm Hr. rewrite !iterate_monitor, Hm, Hr, iterate_running.
  repeat split.
Qed.

Lemma sampler_independent_of_policy_witness :
  reads_of [tick_a; tick_b] =
    reads_of [{| procstat := Some stats_a; stack := stats0; now := 7 |};
              {| procstat := Some stats_b; stack := stats0; now := 8 |}] /\
  monitor (iterate gen_zero [tick_a; tick_b] (initial_state startup0)) =
  monitor (iterate gen_half
             [{| procstat := Some stats_a; stack := stats0; now := 7 |};
              {| procstat := Some stats_b; stack := stats0; now := 8 |}]
             state_active).
Proof.
  split; [reflexivity|].
  apply (sampler_independent_of_policy gen_zero gen_half [tick_a; tick_b]
           [{| procstat := Some stats_a; stack := stats0; now := 7 |};
            {| procstat := Some stats_b; stack := stats0; now := 8 |}]
           (initial_state startup0) state_active); reflexivity.
Defined.

(** ** What the monitor remembers *)

Lemma last_success_from acc reads :
  fold_left (fun acc r => match fst r with Some s => Some s | None => acc end)
            reads acc =
  match last_success reads with Some s => Some s | None => acc end.
Proof.
  unfold last_success. revert acc.
  induction reads as [|[p j] reads IH] using rev_ind; intros acc.
  - reflexivity.
  - rewrite !fold_left_app. cbn [fold_left fst].
    destruct p as [s|]; [reflexivity|]. apply IH.
Qed.

Lemma last_success_none reads :
  forall acc,
    fold_left (fun acc r => match fst r with Some s => Some s | None => acc end)
              reads acc = None ->
    existsb succeeded reads = false.
Proof.
  induction reads as [|[p j] reads IH]; intros acc H; [reflexivity|].
  cbn [fold_left fst existsb succeeded] in *. destruct p as [s|].
  - rewrite last_success_from in H. destruct (last_success reads); discriminate.
  - cbn [orb]. eapply IH. exact H.
Qed.

Lemma sample_all_tracks reads :
  forall m,
    (initialized m = false -> cpuLoad m = lit_0_0) ->
    let m' := snd (sample_all m reads) in
    initialized m' = initialized m || existsb succeeded reads /\
    lastStats m' = match last_success reads with Some s => s | None => lastStats m end /\
    (initialized m' = false -> m' = m) /\
    (initialized m' = false -> cpuLoad m' = lit_0_0).
Proof.
  induction reads as [|[p j] reads IH]; intros m Hm.
  - cbn. rewrite orb_false_r. auto.
  - cbn zeta. rewrite sample_all_snd_cons.
    cbn [existsb succeeded fst]. unfold last_success. cbn [fold_left fst].
    rewrite last_success_from.
    destruct p as [s|].
    + destruct (initialized m) eqn:Ei.
      * (* a diffing call *)
        assert (Hg : initialized (snd (getCPULoad (Some s) j m)) = true /\
                     lastStats (snd (getCPULoad (Some s) j m)) = s).
        { unfold getCPULoad. cbn [readCPUStats negb]. rewrite Ei. cbn [negb].
          destruct (usub _ _ =? 0); split; reflexivity. }
        destruct Hg as [Hi Hl].
        destruct (IH (snd (getCPULoad (Some s) j m)) ltac:(rewrite Hi; discriminate))
          as (I1 & I2 & I3 & I4).
        rewrite I1, I2, Hi, Hl. cbn [orb].
        repeat split; try discriminate.
        destruct (last_success reads); reflexivity.
      * rewrite (getCPULoad_calibration s j m Ei). cbn [snd].
        destruct (IH {| lastStats := s; cpuLoad := cpuLoad m; initialized := true |}
                     ltac:(discriminate)) as (I1 & I2 & I3 & I4).
        rewrite I1, I2. cbn [initialized lastStats orb].
        repeat split; try discriminate.
        destruct (last_success reads); reflexivity.
    + rewrite getCPULoad_failed. cbn [snd orb].
      destruct (IH m Hm) as (I1 & I2 & I3 & I4).
      split; [exact I1|]. split; [|split; assumption].
      rewrite I2. destruct (last_success reads); reflexivity.
Qed.

(** After any sequence of calls on a new monitor, the flag is set exactly
    when some read has succeeded; the stored snapshot is then that of the
    last successful read, and otherwise the monitor is as the constructor
    left it. *)
Theorem monitor_tracks_last_success first junk reads :
  let m0 := CPUMonitor_new first junk in
  let m := snd (sample_all m0 reads) in
  initialized m = existsb succeeded reads /\
  match last_success reads with
  | Some s => lastStats m = s
  | None => m = m0
  end.
Proof.
  intros m0 m.
  destruct (sample_all_tracks reads m0 ltac:(reflexivity)) as (I1 & I2 & I3 & I4).
  fold m in I1, I2, I3. split; [exact I1|].
  destruct (last_success reads) as [s|] eqn:El; [exact I2|].
  apply I3. rewrite I1. cbn [initialized m0 CPUMonitor_new orb].
  exact (last_success_none reads None El).
Qed.

(** On a monitor reached from the constructor, every call returns the
    smoothed load the monitor holds after the call. *)
Theorem returned_load_is_stored first junk reads p j :
  let m := snd (sample_all (CPUMonitor_new first junk) reads) in
  fst (getCPULoad p j m) = cpuLoad (snd (getCPULoad p j m)).
Proof.
  intros m.
  destruct (sample_all_tracks reads (CPUMonitor_new first junk) ltac:(reflexivity))
    as (_ & _ & _ & I4). fold m in I4.
  unfold getCPULoad. destruct p as [s|]; cbn [readCPUStats negb]; [|reflexivity].
  destruct (initialized m) eqn:Ei; cbn [negb].
  - destruct (usub _ _ =? 0); reflexivity.
  - cbn [fst snd cpuLoad]. symmetry. apply I4. reflexivity.
Qed.

(** ** The whole run *)

Lemma main_loop_ticks gen ins rest :
  forall st,
    running st = true ->
    main_loop gen (map Tick ins ++ rest) st = main_loop gen rest (iterate gen ins st).
Proof.
  unfold iterate. induction ins as [|i ins IH]; intros st Hr; [reflexivity|].
  cbn [map app main_loop fold_left]. rewrite Hr. cbn [negb].
  apply IH. destruct (loop_body_monitor gen i st) as [_ H]. rewrite H. exact Hr.
Qed.

(** The program never leaves the loop on its own: with the hardware
    initialised and no signal it is still looping after any number of
    iterations. When a signal arrives it exits with status 0 from the state
    the iterations before the signal have built, with both channels switched
    off and the library terminated, and nothing that would have come later
    has any effect. When the initialisation fails it exits with status 1
    without an iteration. *)
Theorem main_runs_until_signal s gen ins :
  main s gen (map Tick ins) =
    (if gpioInitialise s <? 0 then Exited 1 (pins s)
     else Looping (iterate gen ins (initial_state s))) /\
  (forall signum rest,
     main s gen (map Tick ins ++ Signal signum :: rest) =
       (if gpioInitialise s <? 0 then Exited 1 (pins s)
        else Exited 0 (gpioTerminate
                         (setOff (gpio (iterate gen ins (initial_state s))))))).
Proof.
  assert (Hr : running (iterate gen ins (initial_state s)) = true).
  { rewrite iterate_running. reflexivity. }
  unfold main. split.
  - destruct (gpioInitialise s <? 0); [reflexivity|].
    rewrite <- (app_nil_r (map Tick ins)), main_loop_ticks by reflexivity.
    cbn [main_loop]. rewrite Hr. reflexivity.
  - intros signum rest. destruct (gpioInitialise s <? 0); [reflexivity|].
    rewrite main_loop_ticks by reflexivity.
    cbn [main_loop]. rewrite Hr. reflexivity.
Qed.

(** ** How long a flash and a pause last *)

Lemma elapsed_ms_lower a b n :
  0 <= n -> n < elapsed_ms a b -> (n + 1) * 1000000 <= i64 (a - b).
Proof.
  unfold elapsed_ms. intros Hn H. set (d := i64 (a - b)) in *.
  destruct (Z.le_gt_cases 0 d) as [Hd|Hd].
  - rewrite Z.quot_div_nonneg in H by lia.
    pose proof (Z.div_mod d 1000000 ltac:(lia)).
    pose proof (Z.mod_pos_bound d 1000000 ltac:(lia)). lia.
  - exfalso.
    assert (Z.quot d 1000000 <= 0).
    { rewrite <- (Z.opp_involutive d), Z.quot_opp_l by lia.
      assert (0 <= Z.quot (- d) 1000000) by (apply Z.quot_pos; lia). lia. }
    lia.
Qed.

(** In a state the loop has reached, an iteration ends a flash only when
    more than the target duration, hence more than
    [MIN_FLASH_DURATION_MS], has elapsed on the clock since the flash began:
    at least 13 ms. It then records the time of the iteration as the end of
    the flash. *)
Theorem flash_lasts_at_least_min s gen ins i :
  let st := iterate gen ins (initial_state s) in
  let st' := loop_body gen i st in
  isGreen st = true -> isGreen st' = false ->
  MIN_FLASH_DURATION_MS <= currentFlashDuration st < elapsed_ms (now i) (flashTimer st) /\
  13000000 <= i64 (now i - flashTimer st) /\
  lastFlashEndTime st' = now i.
Proof.
  intros st st' Hg Hg'.
  pose proof (iterate_duration gen ins (initial_state s)
                ltac:(cbn; unfold MIN_FLASH_DURATION_MS, MAX_FLASH_DURATION_MS; lia))
    as Hd. fold st in Hd.
  unfold st' in *. rewrite loop_body_unfold in *.
  unfold flash_step in *. cbn [isGreen flashTimer currentFlashDuration lastFlashEndTime] in *.
  rewrite Hg in *. cbn [andb negb] in *.
  destruct (Z.ltb_spec (currentFlashDuration st) (elapsed_ms (now i) (flashTimer st)))
    as [Hlt|Hge].
  - split; [lia|]. split; [|reflexivity].
    apply (elapsed_ms_lower _ _ 12); [lia|].
    unfold MIN_FLASH_DURATION_MS in Hd. lia.
  - cbn [isGreen] in Hg'. congruence.
Qed.

Lemma flash_lasts_at_least_min_witness :
  let st := iterate gen_zero [tick_a; tick_b] (initial_state startup0) in
  isGreen st = true /\ isGreen (loop_body gen_zero tick_c st) = false /\
  13000000 <= i64 (now tick_c - flashTimer st).
Proof.
  split; [reflexivity|]. split; [reflexivity|].
  apply (flash_lasts_at_least_min startup0 gen_zero [tick_a; tick_b] tick_c);
    reflexivity.
Defined.

(** In a state the loop has reached, an iteration begins a flash only when
    the load it has just sampled is above the threshold and more than
    [MIN_PAUSE_BETWEEN_FLASHES_MS] has elapsed on the clock since the last
    flash ended: at least 31 ms. It then records the time of the iteration
    as the start of the flash, draws three numbers and turns the LED
    green. *)
Theorem flash_begins_after_pause gen i st :
  let load := fst (getCPULoad (procstat i) (stack i) (monitor st)) in
  let st' := loop_body gen i st in
  isGreen st = false -> isGreen st' = true ->
  Double.ltb ACTIVITY_THRESHOLD load = true /\
  31000000 <= i64 (now i - lastFlashEndTime st) /\
  flashTimer st' = now i /\
  drawn st' = S (S (S (drawn st))) /\
  currentFlashDuration st' = flash_duration load (gen (S (S (drawn st)))) /\
  gpio st' = setGreen (gpio st).
Proof.
  intros load st' Hg Hg'. unfold st' in *. rewrite loop_body_unfold in *.
  fold load in Hg' |- *.
  unfold flash_step in *.
  cbn [isGreen flashTimer currentFlashDuration lastFlashEndTime drawn gpio] in *.
  rewrite Hg in *. cbn [andb negb] in *.
  destruct (Double.ltb ACTIVITY_THRESHOLD load); cbn [andb] in *;
    [|cbn [isGreen] in Hg'; congruence].
  destruct (Z.ltb_spec MIN_PAUSE_BETWEEN_FLASHES_MS
              (elapsed_ms (now i) (lastFlashEndTime st))) as [Hlt|Hge];
    [|cbn [isGreen] in Hg'; congruence].
  destruct (Double.ltb (gen (S (drawn st))) (flashProbability_of load (gen (drawn st))));
    [|cbn [isGreen] in Hg'; congruence].
  cbn. repeat split.
  apply (elapsed_ms_lower _ _ 30); [lia|exact Hlt].
Qed.

Lemma flash_begins_after_pause_witness :
  let st := iterate gen_zero [tick_a] (initial_state startup0) in
  isGreen st = false /\ isGreen (loop_body gen_zero tick_b st) = true /\
  31000000 <= i64 (now tick_b - lastFlashEndTime st).
Proof.
  split; [reflexivity|]. split; [reflexivity|].
  apply (flash_begins_after_pause gen_zero tick_b
           (iterate gen_zero [tick_a] (initial_state startup0))); reflexivity.
Defined.

(** ** Fully busy and fully idle intervals *)

(** Adding [+0] to a number that is [+0] or positive leaves it as it is. *)
Lemma add_zero_r B x :
  Double.within B x = true -> Double.add x (S754_zero false) = x.
Proof.
  intros H. destruct (DoubleFacts.within_inv _ _ H) as [->|(m & e & -> & _)];
    reflexivity.
Qed.

Lemma currentLoad_busy t :
  0 < t < 2 ^ 64 -> currentLoad_of 0 t = lit_100_0.
Proof.
  intros Ht. unfold currentLoad_of, cast_double.
  destruct (DoubleFacts.of_Z_finite t Ht) as (p & e & -> & _). reflexivity.
Qed.

Lemma currentLoad_idle t :
  0 < t < 2 ^ 64 -> currentLoad_of t t = lit_0_0.
Proof.
  intros Ht. unfold currentLoad_of, cast_double.
  destruct (DoubleFacts.of_Z_finite t Ht) as (p & e & -> & _).
  unfold Double.div. rewrite DoubleMore.div_self. reflexivity.
Qed.

Lemma usub_range a b : 0 <= usub a b < 2 ^ 64.
Proof. unfold usub, u64. apply Z.mod_pos_bound. lia. Qed.

(** When the total has advanced, an interval without idle time moves the
    smoothed load halfway to 100, and an interval of idle time only halves
    it. The smoothed load before the call is taken between 0 and 100. *)
Theorem busy_and_idle_intervals s junk m :
  initialized m = true ->
  Double.within lit_100_0 (cpuLoad m) = true ->
  let total_diff := usub (total s) (total (lastStats m)) in
  let idle_diff := usub (idle_total s) (idle_total (lastStats m)) in
  total_diff <> 0 ->
  (idle_diff = 0 ->
   fst (getCPULoad (Some s) junk m) =
   Double.add (Double.mul (cpuLoad m) lit_0_5) (Double.of_Z 50)) /\
  (idle_diff = total_diff ->
   fst (getCPULoad (Some s) junk m) = Double.mul (cpuLoad m) lit_0_5).
Proof.
  intros Hi Hw total_diff idle_diff Ht.
  pose proof (usub_range (total s) (total (lastStats m))) as Hr. fold total_diff in Hr.
  rewrite (getCPULoad_progress s junk m Hi Ht). cbn [fst].
  fold total_diff idle_diff. split; intros ->.
  - rewrite currentLoad_busy by lia. reflexivity.
  - rewrite currentLoad_idle by lia. unfold smooth.
    change (Double.mul lit_0_0 (Double.sub lit_1_0 ACTIVITY_SMOOTHING))
      with (S754_zero false).
    change ACTIVITY_SMOOTHING with lit_0_5.
    apply (add_zero_r (S754_finite false 7036874417766400 (-47))).
    unfold Double.mul. rewrite DoubleFacts.SFmul_comm.
    exact (DoubleFacts.mul_within 4503599627370496 (-53) _ 7036874417766400 (-46)
             7036874417766400 (-47) eq_refl eq_refl eq_refl Hw
             ltac:(vm_compute; discriminate)).
Qed.

Lemma busy_and_idle_intervals_witness :
  let m := {| lastStats := stats_a; cpuLoad := Double.of_Z 50; initialized := true |} in
  fst (getCPULoad (Some stats_b) stats0 m) = Double.of_Z 75 /\
  fst (getCPULoad (Some (mkCPUStats 100 0 0 150 0 0 0)) stats0 m) = Double.of_Z 25.
Proof.
  split.
  - apply (busy_and_idle_intervals stats_b stats0
             {| lastStats := stats_a; cpuLoad := Double.of_Z 50; initialized := true |}
             eq_refl eq_refl); [vm_compute; discriminate|reflexivity].
  - apply (busy_and_idle_intervals (mkCPUStats 100 0 0 150 0 0 0) stats0
             {| lastStats := stats_a; cpuLoad := Double.of_Z 50; initialized := true |}
             eq_refl eq_refl); [vm_compute; discriminate|reflexivity].
Defined.

(** ** The console bar *)

Lemma firstn_repeat {A} (a : A) n m :
  (n <= m)%nat -> firstn n (repeat a m) = repeat a n.
Proof.
  revert m. induction n as [|n IH]; intros m H; [reflexivity|].
  destruct m as [|m]; [lia|]. cbn. f_equal. apply IH. lia.
Qed.

Lemma cast_int_lower x : -2147483648 <= cast_int x.
Proof.
  unfold cast_int, INT_MIN, INT_MAX.
  change (- 2 ^ 31) with (-2147483648). change (2 ^ 31 - 1) with 2147483647.
  destruct x as [s|[|]| |s m e]; cbn [Double.trunc]; lia.
Qed.

Lemma barLength_within load :
  Double.within lit_100_0 load = true -> 0 <= barLength_of load <= 50.
Proof.
  intros Hl. unfold barLength_of.
  change (cast_double 2) with (S754_finite false 4503599627370496 (-51)).
  pose proof (DoubleMore.div_within_gen load 4503599627370496 (-51)
                7036874417766400 (-46) 7036874417766400 (-47)
                eq_refl eq_refl eq_refl Hl ltac:(vm_compute; discriminate)) as Hq.
  destruct (trunc_within 7036874417766400 (-47) _ ltac:(lia) eq_refl Hq) as (v & Hv & Hb).
  change (Z.pos 7036874417766400 / 2 ^ (- -47)) with 50 in Hb.
  unfold Double.div.
  rewrite (cast_int_in_range _ v Hv) by (unfold INT_MIN, INT_MAX; lia). lia.
Qed.

(** For a load between 0 and 100 the bar is fifty characters wide:
    [barLength], between 0 and 50, times ['#'], then ['-']. *)
Theorem console_bar_width load :
  Double.within lit_100_0 load = true ->
  0 <= barLength_of load <= 50 /\
  console_bar load =
    repeat (Ascii.ascii_of_nat 35) (Z.to_nat (barLength_of load))
    ++ repeat (Ascii.ascii_of_nat 45) (50 - Z.to_nat (barLength_of load)) /\
  length (console_bar load) = 50%nat.
Proof.
  intros Hl. pose proof (barLength_within load Hl) as Hb.
  split; [exact Hb|].
  assert (E : console_bar load =
    repeat (Ascii.ascii_of_nat 35) (Z.to_nat (barLength_of load))
    ++ repeat (Ascii.ascii_of_nat 45) (50 - Z.to_nat (barLength_of load))).
  { unfold console_bar, printf_precision_s. set (b := barLength_of load) in *.
    assert (Hs : isub 50 b = 50 - b).
    { unfold isub, i32. rewrite Z.mod_small; lia. }
    rewrite Hs.
    replace (b <? 0) with false by (symmetry; apply Z.ltb_ge; lia).
    replace (50 - b <? 0) with false by (symmetry; apply Z.ltb_ge; lia).
    unfold bar_hashes, bar_dashes.
    rewrite !firstn_repeat by lia. f_equal. f_equal. lia. }
  split; [exact E|]. rewrite E, length_app, !repeat_length. lia.
Qed.

Lemma console_bar_width_witness :
  Double.within lit_100_0 (Double.of_Z 50) = true /\
  barLength_of (Double.of_Z 50) = 25 /\
  length (console_bar (Double.of_Z 50)) = 50%nat.
Proof.
  split; [reflexivity|]. split; [reflexivity|].
  apply (console_bar_width (Double.of_Z 50)). reflexivity.
Defined.

(** When [barLength] is negative both precisions select the whole of their
    strings, and the bar is a hundred characters wide. *)
Theorem console_bar_negative load :
  barLength_of load < 0 ->
  console_bar load = bar_hashes ++ bar_dashes /\
  length (console_bar load) = 100%nat.
Proof.
  intros Hb.
  assert (E : console_bar load = bar_hashes ++ bar_dashes).
  { unfold console_bar, printf_precision_s. set (b := barLength_of load) in *.
    replace (b <? 0) with true by (symmetry; apply Z.ltb_lt; lia).
    f_equal.
    destruct (Z.ltb_spec (isub 50 b) 0) as [|Hge]; [reflexivity|].
    apply firstn_all2. unfold bar_dashes. rewrite repeat_length.
    assert (50 < isub 50 b); [|lia].
    assert (Hlo : -2147483648 <= b).
    { pose proof (cast_int_lower (Double.div load (cast_double 2))).
      unfold b, barLength_of. lia. }
    unfold isub, i32 in *.
    change (2 ^ 31) with 2147483648 in *. change (2 ^ 32) with 4294967296 in *.
    pose proof (Z.div_mod (50 - b + 2147483648) 4294967296 ltac:(lia)).
    pose proof (Z.mod_pos_bound (50 - b + 2147483648) 4294967296 ltac:(lia)).
    lia. }
  split; [exact E|]. rewrite E. reflexivity.
Qed.

Lemma console_bar_negative_witness :
  barLength_of load_negative < 0 /\ length (console_bar load_negative) = 100%nat.
Proof.
  split; [reflexivity|]. apply (console_bar_negative load_negative). reflexivity.
Defined.

(** ** The flash probability *)

Lemma flashProbability_within load r1 :
  Double.within lit_100_0 load = true -> is_draw r1 = true ->
  Double.within flash_probability_cap (flashProbability_of load r1) = true.
Proof.
  intros Hl Hr. unfold flashProbability_of, Double.mul, Double.add, is_draw in *.
  rewrite (DoubleFacts.SFmul_comm load), (DoubleFacts.SFmul_comm r1).
  pose proof (DoubleFacts.mul_within 5764607523034235 (-57) load
                7036874417766400 (-46) 4503599627370497 (-50)
                eq_refl eq_refl eq_refl Hl ltac:(vm_compute; discriminate)) as Ha.
  pose proof (DoubleFacts.mul_within 4503599627370496 (-54) _
                4503599627370497 (-50) 4503599627370497 (-52)
                eq_refl eq_refl eq_refl Ha ltac:(vm_compute; discriminate)) as Hb.
  pose proof (DoubleFacts.mul_within 5404319552844595 (-54) r1
                4503599627370496 (-52) 5404319552844595 (-54)
                eq_refl eq_refl eq_refl Hr ltac:(vm_compute; discriminate)) as Hv.
  pose proof (DoubleMore.add_bound lit_0_5 _
                4503599627370496 (-53) 5404319552844595 (-54)
                7205759403792794 (-53)
                eq_refl eq_refl eq_refl eq_refl Hv ltac:(vm_compute; discriminate)) as Hf.
  exact (DoubleMore.mul_within2 _ _ 4503599627370497 (-52) 7205759403792794 (-53)
           7205759403792796 (-53) eq_refl eq_refl eq_refl Hb Hf
           ltac:(vm_compute; discriminate)).
Qed.

(** For a load between 0 and 100 the flash probability is at most
    0.8000000000000003, below 1: an iteration whose second draw is at or
    above that value begins no flash, whatever the load. *)
Theorem flash_chance_is_capped gen load t st :
  isGreen st = false ->
  Double.within lit_100_0 load = true ->
  is_draw (gen (drawn st)) = true ->
  is_draw (gen (S (drawn st))) = true ->
  Double.leb flash_probability_cap (gen (S (drawn st))) = true ->
  Double.within flash_probability_cap
    (flashProbability_of load (gen (drawn st))) = true /\
  Double.ltb flash_probability_cap lit_1_0 = true /\
  isGreen (flash_step gen load t st) = false.
Proof.
  intros Hg Hl H1 H2 Hle.
  pose proof (flashProbability_within load _ Hl H1) as Hp.
  split; [exact Hp|]. split; [reflexivity|].
  unfold flash_step. rewrite Hg. cbn [andb negb].
  match goal with |- context [if ?c then _ else st] => destruct c end; [|exact Hg].
  assert (Hno : Double.ltb (gen (S (drawn st)))
                  (flashProbability_of load (gen (drawn st))) = false).
  { unfold is_draw in H2.
    destruct (DoubleFacts.within_inv _ _ H2) as [E|(m & e & E & Hb & _)];
      rewrite E in *; [discriminate Hle|].
    exact (DoubleMore.ltb_false_above 7205759403792796 (-53) _ m e
             eq_refl Hp Hb Hle). }
  rewrite Hno. reflexivity.
Qed.

Lemma flash_chance_is_capped_witness :
  isGreen state_idle = false /\
  Double.leb flash_probability_cap (gen_high 1%nat) = true /\
  isGreen (flash_step gen_high lit_100_0 31000000 state_idle) = false.
Proof.
  split; [reflexivity|]. split; [reflexivity|].
  apply (flash_chance_is_capped gen_high lit_100_0 31000000 state_idle); reflexivity.
Defined.

(** ** The load the loop works with *)

Lemma sample_all_keeps_within reads :
  forall prev m,
    Double.within lit_100_0 (cpuLoad m) = true ->
    (initialized m = true ->
     prev = Some (lastStats m) /\ is_u64 (lastStats m) = true /\
     sum_fits (lastStats m) = true) ->
    monotone_from prev (map fst reads) = true ->
    no_overflow (map fst reads) = true ->
    Double.within lit_100_0 (cpuLoad (snd (sample_all m reads))) = true.
Proof.
  induction reads as [|[r junk] reads IH]; intros prev m Hw Hinit Hmono Hfit.
  - exact Hw.
  - rewrite sample_all_snd_cons.
    cbn [map fst monotone_from no_overflow forallb] in *.
    destruct r as [s|].
    + apply andb_true_iff in Hmono. destruct Hmono as [Hmono Hrest].
      apply andb_true_iff in Hmono. destruct Hmono as [Hu Hle].
      apply andb_true_iff in Hfit. destruct Hfit as [Hsf Hfit].
      destruct (initialized m) eqn:Ei.
      * destruct (Hinit eq_refl) as (-> & Hpu & Hpf).
        destruct (getCPULoad_within (lastStats m) s junk m Ei eq_refl Hpu Hpf Hu Hsf Hle Hw)
          as (_ & W2 & I2 & L2).
        apply (IH (Some s)); try assumption. intros _. rewrite L2. auto.
      * rewrite (getCPULoad_calibration s junk m Ei). cbn [snd].
        apply (IH (Some s)); try assumption. cbn. auto.
    + rewrite getCPULoad_failed. cbn [snd]. apply (IH prev); assumption.
Qed.

(** When the snapshots a run reads have non-decreasing counters and sums
    below [2^64], the load every iteration works with is between 0 and
    100; the bar it prints is then fifty characters wide, and the base
    duration it would compute for a flash lies between
    [MIN_FLASH_DURATION_MS] and [MAX_FLASH_DURATION_MS], both conversions to
    [int] being defined. *)
Theorem loop_load_in_range s gen ins i :
  monotone_reads (map procstat (ins ++ [i])) = true ->
  no_overflow (map procstat (ins ++ [i])) = true ->
  let st := iterate gen ins (initial_state s) in
  let load := fst (getCPULoad (procstat i) (stack i) (monitor st)) in
  in_range load = true /\
  load = cpuLoad (monitor (loop_body gen i st)) /\
  0 <= barLength_of load <= 50 /\
  MIN_FLASH_DURATION_MS <= base_duration load <= MAX_FLASH_DURATION_MS.
Proof.
  intros Hm Hn st load.
  assert (Hmap : map procstat (ins ++ [i]) = map fst (reads_of (ins ++ [i]))).
  { unfold reads_of. rewrite map_map. reflexivity. }
  rewrite Hmap in Hm, Hn.
  pose proof (sample_all_keeps_within (reads_of (ins ++ [i])) None
                (monitor (initial_state s)) eq_refl ltac:(discriminate) Hm Hn) as Hw.
  assert (Hstored : load = cpuLoad (snd (getCPULoad (procstat i) (stack i) (monitor st)))).
  { unfold load.
    destruct (sample_all_tracks (reads_of ins) (monitor (initial_state s))
                ltac:(reflexivity)) as (_ & _ & _ & I4).
    cbv zeta in I4. rewrite <- (iterate_monitor gen ins (initial_state s)) in I4. fold st in I4.
    unfold getCPULoad. destruct (procstat i) as [c|]; cbn [readCPUStats negb];
      [|reflexivity].
    destruct (initialized (monitor st)) eqn:Ei; cbn [negb].
    - destruct (usub _ _ =? 0); reflexivity.
    - cbn [fst snd cpuLoad]. symmetry. apply I4. reflexivity. }
  assert (Hl : load = cpuLoad (snd (sample_all (monitor (initial_state s))
                                      (reads_of (ins ++ [i]))))).
  { unfold reads_of. rewrite map_app, sample_all_app. cbn [snd map].
    fold (reads_of ins). rewrite <- (iterate_monitor gen ins (initial_state s)). fold st.
    rewrite sample_all_snd_cons. cbn [sample_all snd]. exact Hstored. }
  rewrite <- Hl in Hw.
  split; [apply within_in_range; exact Hw|].
  split.
  { destruct (loop_body_monitor gen i st) as [Hmon _]. rewrite Hmon. exact Hstored. }
  split; [exact (barLength_within load Hw)|].
  exact (proj1 (flash_duration_defined load draw_max Hw eq_refl)).
Qed.

Lemma loop_load_in_range_witness :
  monotone_reads (map procstat ([tick_a] ++ [tick_b])) = true /\
  no_overflow (map procstat ([tick_a] ++ [tick_b])) = true /\
  in_range (fst (getCPULoad (procstat tick_b) (stack tick_b)
                   (monitor (iterate gen_zero [tick_a] (initial_state startup0)))))
  = true.
Proof.
  split; [reflexivity|]. split; [reflexivity|].
  apply (loop_load_in_range startup0 gen_zero [tick_a] tick_b); reflexivity.
Defined.

(** ** The duration of a flash *)

(** For a load between 0 and 100 and a draw of [0, 1] the conversions to
    [int] of lines 230 and 232 are defined and nothing overflows; the
    duration of the flash is then at least the base duration, which lies
    between 12 and 50 ms, and at most 6 ms more, capped at 50 ms. *)
Theorem flash_duration_from_base load r3 :
  Double.within lit_100_0 load = true -> is_draw r3 = true ->
  MIN_FLASH_DURATION_MS <= base_duration load <= flash_duration load r3 /\
  flash_duration load r3 <= MAX_FLASH_DURATION_MS /\
  flash_duration load r3 = Z.min MAX_FLASH_DURATION_MS (base_duration load + jitter r3) /\
  flash_duration load r3 <= base_duration load + 6.
Proof.
  intros Hl Hr.
  destruct (flash_duration_defined load r3 Hl Hr) as [Hb Hf].
  pose proof (randomVariation_bounds r3 Hr) as Hv.
  assert (Hj : jitter r3 = randomVariation_of r3 - randomVariation_of r3 / 2).
  { unfold jitter. set (rv := randomVariation_of r3) in *.
    assert (Hq : Z.quot rv 2 = rv / 2) by (apply Z.quot_div_nonneg; lia).
    assert (Hh : 0 <= rv / 2 < 6)
      by (split; [apply Z.div_pos; lia|apply Z.div_lt_upper_bound; lia]).
    unfold isub, idiv, i32. rewrite Hq.
    change (2 ^ 31) with 2147483648. change (2 ^ 32) with 4294967296.
    rewrite (Z.mod_small (rv / 2 + 2147483648)) by lia.
    replace (rv / 2 + 2147483648 - 2147483648) with (rv / 2) by lia.
    rewrite Z.mod_small by lia. lia. }
  pose proof (Z.mul_div_le (randomVariation_of r3) 2 ltac:(lia)) as Hd.
  assert (Hd' : randomVariation_of r3 < 2 * (randomVariation_of r3 / 2) + 2).
  { pose proof (Z.div_mod (randomVariation_of r3) 2 ltac:(lia)).
    pose proof (Z.mod_pos_bound (randomVariation_of r3) 2 ltac:(lia)). lia. }
  rewrite Hj, Hf. unfold MIN_FLASH_DURATION_MS, MAX_FLASH_DURATION_MS in *.
  repeat split; lia.
Qed.

Lemma flash_duration_from_base_witness :
  Double.within lit_100_0 (Double.of_Z 50) = true /\ is_draw draw_max = true /\
  base_duration (Double.of_Z 50) <= flash_duration (Double.of_Z 50) draw_max.
Proof.
  split; [reflexivity|]. split; [reflexivity|].
  apply (flash_duration_from_base (Double.of_Z 50) draw_max); reflexivity.
Defined.
